(** * nomoc.cpp: the undoable row model and the cancellable worker

    A shallow embedding of the core of [src/nomoc.cpp]: the table model
    [DataModel] with its two mutations, the undo command [AddRowCommand],
    the background [Worker], and the part of [MainWindow] that wires the
    "Add Row" button and the Undo/Redo actions to them.

    Conventions.
    - [int] values are [Z]; a 64-bit container size narrowed to [int] goes
      through [to_int], which keeps the low 32 bits (two's complement).
    - [QString] is [string], [QStringList] is [list string],
      [QVector<QStringList>] is [list (list string)].
    - Member functions that mutate their object take the object's state
      and return the new one; signals emitted on the way are appended to
      a log kept in the state.
    - Indexing a container outside its range is not defined by the
      toolkit; such an access is an explicit [OutOfRange] result. *)

From stdpp Require Import base numbers list strings pretty.

Open Scope Z_scope.

(** ** Integers *)

Definition INT_MAX : Z := 2 ^ 31 - 1.
Definition INT_MIN : Z := - 2 ^ 31.

(** Narrowing conversion to [int]. *)
Definition to_int (z : Z) : Z := (z + 2 ^ 31) `mod` 2 ^ 32 - 2 ^ 31.

(** [qsizetype QList::size()]. *)
Definition size {A} (l : list A) : Z := Z.of_nat (length l).

(** [QString::number(int)], base 10. *)
Definition QString_number (n : Z) : string := pretty n.

(** ** Checked container access *)

Inductive access (A : Type) : Type :=
| Ok (a : A)
| OutOfRange.
Arguments Ok {A} a.
Arguments OutOfRange {A}.

Global Instance access_ret : MRet access := fun A a => Ok a.

Global Instance access_bind : MBind access := fun A B k x =>
  match x with
  | Ok a => k a
  | OutOfRange => OutOfRange
  end.

(** [operator[]] of [QList] on an [int] position. *)
Definition at_index {A} (l : list A) (i : Z) : access A :=
  if i <? 0 then OutOfRange
  else match l !! Z.to_nat i with
       | Some a => Ok a
       | None => OutOfRange
       end.

(** ** Toolkit values used by the model *)

(** [Qt::DisplayRole]. *)
Definition DisplayRole : Z := 0.

(** [QVariant]: [return {}] builds the invalid variant. *)
Inductive QVariant : Type :=
| Invalid
| VString (s : string).

(** [QModelIndex]: a row, a column and the model it belongs to (here only
    whether that pointer is set). The default index is [(-1, -1, nullptr)]. *)
Record QModelIndex : Type := mkIndex {
  row : Z;
  column : Z;
  has_model : bool
}.

(** [QModelIndex::isValid()]. *)
Definition isValid (i : QModelIndex) : bool :=
  (0 <=? row i) && (0 <=? column i) && has_model i.

(** Structural-change signals of [QAbstractItemModel]. *)
Inductive Signal : Type :=
| rowsAboutToBeInserted (first last : Z)
| rowsInserted (first last : Z)
| rowsAboutToBeRemoved (first last : Z)
| rowsRemoved (first last : Z).

(** [Qt::Orientation]. *)
Inductive Orientation : Type :=
| Horizontal
| Vertical.

Global Instance Orientation_eq_dec : EqDecision Orientation.
Proof. solve_decision. Defined.

(** ** The model (lines 25-62) *)

Module DataModel.

(** [rows] is the member of the class; [changes] is the toolkit's stack
    of begun, not yet ended structural changes; [emitted] logs the
    signals sent so far, oldest first. *)
Record t : Type := mk {
  rows : list (list string);
  changes : list (Z * Z);
  emitted : list Signal
}.

Definition empty : t := {| rows := []; changes := []; emitted := [] |}.

Definition emit (s : Signal) (m : t) : t :=
  {| rows := rows m; changes := changes m; emitted := emitted m ++ [s] |}.

Definition set_rows (rs : list (list string)) (m : t) : t :=
  {| rows := rs; changes := changes m; emitted := emitted m |}.

Definition beginInsertRows (first last : Z) (m : t) : t :=
  emit (rowsAboutToBeInserted first last)
    {| rows := rows m; changes := (first, last) :: changes m;
       emitted := emitted m |}.

Definition endInsertRows (m : t) : t :=
  match changes m with
  | [] => m
  | (first, last) :: cs =>
      emit (rowsInserted first last)
        {| rows := rows m; changes := cs; emitted := emitted m |}
  end.

Definition beginRemoveRows (first last : Z) (m : t) : t :=
  emit (rowsAboutToBeRemoved first last)
    {| rows := rows m; changes := (first, last) :: changes m;
       emitted := emitted m |}.

Definition endRemoveRows (m : t) : t :=
  match changes m with
  | [] => m
  | (first, last) :: cs =>
      emit (rowsRemoved first last)
        {| rows := rows m; changes := cs; emitted := emitted m |}
  end.

(** [int rowCount(const QModelIndex &) const { return rows.size(); }] *)
Definition rowCount (m : t) : Z := to_int (size (rows m)).

Definition columnCount (m : t) : Z := 3.

(** [QVariant data(const QModelIndex &i, int r) const]. The two tests of
    line 34 are joined by [||]: the row of [rows] is read only when the
    first test is false. *)
Definition data (m : t) (i : QModelIndex) (r : Z) : access QVariant :=
  if negb (isValid i) || negb (r =? DisplayRole) then Ok Invalid
  else if size (rows m) <=? row i then Ok Invalid
  else
    rec ← at_index (rows m) (row i);
    if size rec <=? column i then Ok Invalid
    else
      rec' ← at_index (rows m) (row i);
      s ← at_index rec' (column i);
      Ok (VString s).

(** [void insertRowData(const QStringList &r)] *)
Definition insertRowData (r : list string) (m : t) : t :=
  let m1 := beginInsertRows (to_int (size (rows m))) (to_int (size (rows m))) m in
  let m2 := set_rows (rows m1 ++ [r]) m1 in
  endInsertRows m2.

(** [bool removeLastRow()] *)
Definition removeLastRow (m : t) : bool * t :=
  if bool_decide (rows m = []) then (false, m)
  else
    let r := to_int (size (rows m) - 1) in
    let m1 := beginRemoveRows r r m in
    let m2 := set_rows (removelast (rows m1)) m1 in
    (true, endRemoveRows m2).

(** [static const QStringList headers{"ID","Name","Timestamp"};] *)
Definition headers : list string := ["ID"; "Name"; "Timestamp"]%string.

(** [QVariant headerData(int s, Qt::Orientation o, int r) const] *)
Definition headerData (m : t) (s : Z) (o : Orientation) (r : Z)
  : access QVariant :=
  if bool_decide (o = Horizontal) && (r =? DisplayRole) then
    if (0 <=? s) && (s <? size headers) then
      h ← at_index headers s; Ok (VString h)
    else Ok Invalid
  else Ok Invalid.

(** The two mutations of the class, as calls made one after the other. The
    [bool] of [removeLastRow] is not kept. *)
Inductive op : Type :=
| Insert (r : list string)
| RemoveLast.

Definition apply_op (m : t) (o : op) : t :=
  match o with
  | Insert r => insertRowData r m
  | RemoveLast => (removeLastRow m).2
  end.

Definition apply_ops (ops : list op) (m : t) : t := foldl apply_op m ops.

(** An observer of the signals, such as a view: it knows how many rows
    there are and follows each announced change; a signal that does not
    fit what it knows (a change announced at another position than the
    end, a change ended that was not begun) breaks it. *)
Inductive view : Type :=
| Idle (n : Z)
| Inserting (n : Z)
| Removing (n : Z)
| Broken.

Definition view_step (v : view) (s : Signal) : view :=
  match v, s with
  | Idle n, rowsAboutToBeInserted f l =>
      if (f =? n) && (l =? n) then Inserting n else Broken
  | Inserting n, rowsInserted f l =>
      if (f =? n) && (l =? n) then Idle (n + 1) else Broken
  | Idle n, rowsAboutToBeRemoved f l =>
      if (0 <? n) && (f =? n - 1) && (l =? n - 1) then Removing n else Broken
  | Removing n, rowsRemoved f l =>
      if (f =? n - 1) && (l =? n - 1) then Idle (n - 1) else Broken
  | _, _ => Broken
  end.

Definition view_of (log : list Signal) : view := foldl view_step (Idle 0) log.

End DataModel.

(** ** The undo command (lines 67-81) *)

(** [QUndoCommand]: the toolkit's interface of a reversible operation on
    some state [S]. Both members return [void]. *)
Module QUndoCommand.
Class t (C S : Type) : Type := {
  redo : C -> S -> S;
  undo : C -> S -> S
}.
End QUndoCommand.

Module AddRowCommand.

(** The member [model] is a pointer to the one [DataModel] of the
    program ([MainWindow::model]); it is represented by the model state
    the members below are run on. *)
Record t : Type := mk { row : list string }.

(** [void redo() override { model->insertRowData(row); }] *)
Definition redo (c : t) (m : DataModel.t) : DataModel.t :=
  DataModel.insertRowData (row c) m.

(** [void undo() override { model->removeLastRow(); }]: the [bool] that
    [removeLastRow] returns is dropped. *)
Definition undo (c : t) (m : DataModel.t) : DataModel.t :=
  let '(_, m') := DataModel.removeLastRow m in m'.

End AddRowCommand.

Global Instance AddRowCommand_command :
  QUndoCommand.t AddRowCommand.t DataModel.t :=
  {| QUndoCommand.redo := AddRowCommand.redo;
     QUndoCommand.undo := AddRowCommand.undo |}.

(** ** The undo controller *)

Module QUndoStack.

(** Modelled from the spec: [QUndoStack] is the toolkit's class, its code
    is not in [src/]. The definitions follow section 4.2 of the
    specification: a history with a cursor; [push] executes the
    operation's [redo], discards the operations after the cursor,
    appends the operation and advances the cursor past it; [undo] does
    nothing when the cursor is 0 and otherwise runs [undo] of the
    operation at cursor - 1 and decrements the cursor; [redo] does
    nothing when the cursor equals the length and otherwise runs [redo]
    of the operation at the cursor and increments it. *)
Record t (C : Type) : Type := mk {
  command_list : list C;
  index : nat
}.
Arguments mk {C} command_list index.
Arguments command_list {C} _.
Arguments index {C} _.

Definition empty {C} : t C := mk [] 0%nat.

(** The invariant of the data model, section 3: the cursor stays in
    [[0, length]]. *)
Definition wf {C} (u : t C) : Prop :=
  (index u <= length (command_list u))%nat.

(** The operations before the cursor (done) and after it (redoable). *)
Definition done_ops {C} (u : t C) : list C :=
  take (index u) (command_list u).
Definition undone_ops {C} (u : t C) : list C :=
  drop (index u) (command_list u).

(** The calls a client can make. *)
Inductive call (C : Type) : Type :=
| Push (cmd : C)
| Undo
| Redo.
Arguments Push {C} cmd.
Arguments Undo {C}.
Arguments Redo {C}.

Section Operations.
Context {C S : Type} `{QUndoCommand.t C S}.

(** Modelled from the spec: [QUndoStack::push], section 4.2: "execute
    [op.redo()]; discard any ops after cursor; append [op]; advance cursor
    past it". *)
Definition push (cmd : C) (w : S * t C) : S * t C :=
  let s' := QUndoCommand.redo cmd w.1 in
  (s', mk (take (index w.2) (command_list w.2) ++ [cmd]) (index w.2 + 1)).

(** Modelled from the spec: [QUndoStack::undo], section 4.2: "no-op if
    cursor == 0; otherwise invoke [op.undo()] at cursor-1, decrement
    cursor". A cursor beyond the history, which the invariant [wf]
    excludes, leaves everything as it is. *)
Definition undo (w : S * t C) : S * t C :=
  if (index w.2 =? 0)%nat then w
  else match command_list w.2 !! (index w.2 - 1)%nat with
       | Some cmd =>
           (QUndoCommand.undo cmd w.1,
            mk (command_list w.2) (index w.2 - 1))
       | None => w
       end.

(** Modelled from the spec: [QUndoStack::redo], section 4.2: "no-op if
    cursor == length; otherwise invoke [op.redo()] at cursor, increment
    cursor". *)
Definition redo (w : S * t C) : S * t C :=
  if (index w.2 =? length (command_list w.2))%nat then w
  else match command_list w.2 !! index w.2 with
       | Some cmd =>
           (QUndoCommand.redo cmd w.1,
            mk (command_list w.2) (index w.2 + 1))
       | None => w
       end.

Definition do_call (w : S * t C) (c : call C) : S * t C :=
  match c with
  | Push cmd => push cmd w
  | Undo => undo w
  | Redo => redo w
  end.

(** A sequence of calls, oldest first. *)
Definition run (cs : list (call C)) (w : S * t C) : S * t C :=
  foldl do_call w cs.

(** Applying operations directly, in order, without a controller. *)
Definition apply_all (ops : list C) (s : S) : S :=
  foldl (fun s op => QUndoCommand.redo op s) s ops.

End Operations.
End QUndoStack.

(** ** The window: the "Add Row" button and the Undo/Redo actions
    (lines 123-124, 167-182) *)

Module MainWindow.

(** The members [model] and [undo]. *)
Record t : Type := mk {
  model : DataModel.t;
  undo : QUndoStack.t AddRowCommand.t
}.

Definition init : t := mk DataModel.empty QUndoStack.empty.

(** The model together with the undo stack that acts on it. *)
Abbreviation world := (DataModel.t * QUndoStack.t AddRowCommand.t)%type.

Definition of_pair (w : world) : t :=
  mk w.1 w.2.

(** The record built by the handler of the button: the row count as a
    decimal string, the literal "Item", and the current time as text.
    The clock is read by the toolkit; its text is the argument [now]. *)
Definition new_row (m : DataModel.t) (now : string) : list string :=
  [QString_number (DataModel.rowCount m); "Item"%string; now].

(** The handler connected to [add]'s [clicked] (the line written to the
    log file is outside the model). *)
Definition add_clicked (now : string) (w : t) : t :=
  of_pair (QUndoStack.push (AddRowCommand.mk (new_row (model w) now))
             (model w, undo w)).

(** The actions made by [createUndoAction] and [createRedoAction] call
    the stack's [undo] and [redo]. *)
Definition undo_triggered (w : t) : t :=
  of_pair (QUndoStack.undo (model w, undo w)).

Definition redo_triggered (w : t) : t :=
  of_pair (QUndoStack.redo (model w, undo w)).

(** What the user can do to the row model. *)
Inductive action : Type :=
| AddRow (now : string)
| EditUndo
| EditRedo.

Definition handle (w : t) (a : action) : t :=
  match a with
  | AddRow now => add_clicked now w
  | EditUndo => undo_triggered w
  | EditRedo => redo_triggered w
  end.

Definition handle_all (acts : list action) (w : t) : t :=
  foldl handle w acts.

(** The ID field of a record. *)
Definition id_field (r : list string) : option string := r !! 0%nat.
Definition name_field (r : list string) : option string := r !! 1%nat.

(** *** Invariants of the window *)

(** The store holds what it held when the history was empty, followed by
    the records of the done operations. *)
Definition tracks (base : list (list string)) (w : world) : Prop :=
  QUndoStack.wf w.2 /\
  DataModel.rows w.1 = base ++ (AddRowCommand.row <$> QUndoStack.done_ops w.2).

(** Every operation of the history carries the record made for its
    position: the ID field is the position as [rowCount] reported it,
    the Name field is "Item". *)
Definition numbered (u : QUndoStack.t AddRowCommand.t) : Prop :=
  forall k c, QUndoStack.command_list u !! k = Some c ->
    id_field (AddRowCommand.row c) =
      Some (QString_number (to_int (Z.of_nat k))) /\
    name_field (AddRowCommand.row c) = Some "Item"%string.

Definition consistent (w : t) : Prop :=
  tracks [] (model w, undo w) /\ numbered (undo w).

(** Every operation of the history carries a record of three fields. *)
Definition three_fields (u : QUndoStack.t AddRowCommand.t) : Prop :=
  Forall (fun c => length (AddRowCommand.row c) = 3%nat)
    (QUndoStack.command_list u).

End MainWindow.

(** ** The worker (lines 86-101) *)

Module Worker.

(** The two signals of the class. *)
Inductive Signal : Type :=
| progress (i : Z)
| finished.

Global Instance Signal_eq_dec : EqDecision Signal.
Proof. solve_decision. Defined.

(** Where [run] stands: before the loop test with the current [i],
    inside [msleep], before [emit progress(i)], before
    [emit finished()], or returned. *)
Inductive pc : Type :=
| AtTest (i : Z)
| AtSleep (i : Z)
| AtEmit (i : Z)
| AtFinished
| Returned.

(** [stop] is the atomic flag, [at_pc] the position of the thread that
    executes [run], [sent] the signals emitted so far, oldest first. *)
Record t : Type := mk {
  stop : bool;
  at_pc : pc;
  sent : list Signal
}.

(** A fresh worker whose thread has just entered [run]: [stop{false}],
    [int i=0]. *)
Definition init : t := mk false (AtTest 0) [].

(** One atomic action of the thread executing [run]. The loop test
    [i<=100 && !stop] reads the flag once (and only when [i<=100]);
    [i++] never leaves [[0, 101]]. *)
Definition step (w : t) : t :=
  match at_pc w with
  | AtTest i =>
      if (i <=? 100) && negb (stop w)
      then mk (stop w) (AtSleep i) (sent w)
      else mk (stop w) AtFinished (sent w)
  | AtSleep i => mk (stop w) (AtEmit i) (sent w)
  | AtEmit i => mk (stop w) (AtTest (i + 1)) (sent w ++ [progress i])
  | AtFinished => mk (stop w) Returned (sent w ++ [finished])
  | Returned => w
  end.

(** [void cancel() { stop = true; }], called from another thread. *)
Definition cancel (w : t) : t := mk true (at_pc w) (sent w).

(** An interleaving of the run with the callers of [cancel]: [Tick] is
    one action of the run, [Cancel] one call of [cancel]. *)
Inductive event : Type :=
| Tick
| Cancel.

Global Instance event_eq_dec : EqDecision event.
Proof. solve_decision. Defined.

Definition do_event (w : t) (e : event) : t :=
  match e with
  | Tick => step w
  | Cancel => cancel w
  end.

(** [run] under a schedule: the actions of the run and the calls of
    [cancel], oldest first. *)
Definition run (sch : list event) (w : t) : t := foldl do_event w sch.

Definition ticks (sch : list event) : nat :=
  length (filter (fun e => e = Tick) sch).

(** The values of the [progress] signals of a log, and the number of
    [finished] signals in it. *)
Definition progress_values (l : list Signal) : list Z :=
  omap (fun s => match s with progress i => Some i | finished => None end) l.

Definition finished_count (l : list Signal) : nat :=
  length (filter (fun s => s = finished) l).

(** Whether the loop has been left. *)
Definition loop_left (w : t) : bool :=
  match at_pc w with
  | AtFinished | Returned => true
  | _ => false
  end.

(** A bound on the number of actions the run still has to make. *)
Definition fuel (w : t) : Z :=
  match at_pc w with
  | AtTest i => 3 * (101 - i) + 2
  | AtSleep i => 3 * (101 - i) + 1
  | AtEmit i => 3 * (101 - i)
  | AtFinished => 1
  | Returned => 0
  end.

(** *** Invariant of a run *)

(** What holds at every point of a run: the signals sent are
    [progress 0], ..., [progress (n - 1)] for the number [n] of loop
    rounds completed, followed by [finished] once [run] has returned;
    the loop counter is [n]; the loop is left only with [n = 101] or
    with the flag set. *)
Definition inv (w : t) : Prop :=
  exists n : Z, 0 <= n <= 101 /\
    match at_pc w with
    | AtTest i => i = n /\ sent w = progress <$> seqZ 0 n
    | AtSleep i | AtEmit i =>
        i = n /\ n <= 100 /\ sent w = progress <$> seqZ 0 n
    | AtFinished =>
        sent w = progress <$> seqZ 0 n /\ (n = 101 \/ stop w = true)
    | Returned =>
        sent w = (progress <$> seqZ 0 n) ++ [finished] /\
        (n = 101 \/ stop w = true)
    end.

(** The signals a run whose flag is set has yet to send. *)
Definition pending (w : t) : list Signal :=
  match at_pc w with
  | AtTest _ | AtFinished => [finished]
  | AtSleep i | AtEmit i => [progress i; finished]
  | Returned => []
  end.

(** A bound on the number of actions the run still has to make once the
    flag is set. *)
Definition fuel_stopped (w : t) : Z :=
  match at_pc w with
  | AtSleep _ => 4
  | AtEmit _ => 3
  | AtTest _ => 2
  | AtFinished => 1
  | Returned => 0
  end.

End Worker.

(** ** The status label (lines 160, 190-192) *)

Module StatusLabel.

(** [status = new QLabel("Idle")] *)
Definition initial : string := "Idle".

(** The handler connected to [Worker::progress]:
    [status->setText(QString("Progress %1%").arg(p))]. The place marker
    [%1] is replaced by [p] in base 10; the last [%] is no marker. *)
Definition on_progress (p : Z) : string :=
  ("Progress " +:+ QString_number p +:+ "%")%string.

(** The window handles one signal of a worker: [progress] sets the text,
    [finished] is not connected to the label. *)
Definition handle (text : string) (s : Worker.Signal) : string :=
  match s with
  | Worker.progress p => on_progress p
  | Worker.finished => text
  end.

(** The text after the window has handled the signals of [log], oldest
    first, starting from the initial text. *)
Definition text_after (log : list Worker.Signal) : string :=
  foldl handle initial log.

End StatusLabel.

(** ** The theme button (lines 200-204) *)

Module Theme.

(** [dark] is the [static bool] of the handler, [styleSheet] the style
    sheet of the application. *)
Record t : Type := mk {
  dark : bool;
  styleSheet : string
}.

Definition dark_sheet : string := "QWidget{background:#111;color:#eee;}".

(** [static bool dark=false]; [sheet] is the style sheet the application
    has when the window is built: [main] hands its arguments to
    [QApplication], which takes a style sheet from them when one is
    given, and has an empty one otherwise. *)
Definition init (sheet : string) : t := mk false sheet.

(** The handler: [dark=!dark;] then [qApp->setStyleSheet] with the dark
    sheet when [dark] is now set and with the empty text otherwise. *)
Definition clicked (s : t) : t :=
  let d := negb (dark s) in
  mk d (if d then dark_sheet else EmptyString).

Definition clicks (n : nat) (s : t) : t := Nat.iter n clicked s.

End Theme.

(** * Properties *)

(** ** Integers and container access *)

Lemma to_int_small (z : Z) : INT_MIN <= z <= INT_MAX -> to_int z = z.
Proof.
  unfold INT_MIN, INT_MAX, to_int. intros Hz.
  rewrite Z.mod_small by lia. lia.
Qed.

Lemma at_index_lookup {A} (l : list A) (i : Z) (a : A) :
  0 <= i -> l !! Z.to_nat i = Some a -> at_index l i = Ok a.
Proof.
  intros Hi Hl. unfold at_index.
  destruct (Z.ltb_spec i 0); [lia|]. by rewrite Hl.
Qed.

Lemma at_index_in_range {A} (l : list A) (i : Z) :
  0 <= i < size l -> exists a, l !! Z.to_nat i = Some a /\ at_index l i = Ok a.
Proof.
  unfold size. intros Hi.
  destruct (lookup_lt_is_Some_2 l (Z.to_nat i)) as [a Ha]; [lia|].
  exists a. split; [done|]. apply at_index_lookup; [lia|done].
Qed.

(** ** The row store *)

Section RowStore.
Import DataModel.

Lemma insertRowData_eq (r : list string) (m : t) :
  insertRowData r m =
  {| rows := rows m ++ [r];
     changes := changes m;
     emitted := emitted m ++
       [rowsAboutToBeInserted (to_int (size (rows m))) (to_int (size (rows m)));
        rowsInserted (to_int (size (rows m))) (to_int (size (rows m)))] |}.
Proof.
  unfold insertRowData, endInsertRows, set_rows, beginInsertRows, emit. simpl.
  by rewrite <- app_assoc.
Qed.

Lemma removeLastRow_empty (m : t) :
  rows m = [] -> removeLastRow m = (false, m).
Proof. intros Hm. unfold removeLastRow. by rewrite bool_decide_eq_true_2. Qed.

Lemma removeLastRow_snoc (m : t) (rs : list (list string)) (x : list string) :
  rows m = rs ++ [x] ->
  removeLastRow m =
  (true,
   {| rows := rs;
      changes := changes m;
      emitted := emitted m ++
        [rowsAboutToBeRemoved (to_int (size rs)) (to_int (size rs));
         rowsRemoved (to_int (size rs)) (to_int (size rs))] |}).
Proof.
  intros Hm. unfold removeLastRow.
  rewrite bool_decide_eq_false_2 by (rewrite Hm; by destruct rs).
  unfold endRemoveRows, set_rows, beginRemoveRows, emit. simpl.
  rewrite Hm, removelast_last, <- app_assoc. simpl.
  replace (size (rs ++ [x]) - 1) with (size rs); [done|].
  unfold size. rewrite length_app. simpl. lia.
Qed.

(** C7. [removeLastRow] on an empty store returns [false] and returns
    the state as it was: the rows and the signal log are untouched. On a
    store whose rows are [rs ++ [x]] it returns [true], leaves exactly
    [rs], and adds to the log the two removal signals (about to be
    removed, removed) for one position, the one computed at line 56;
    that position is the index of [x], the former last index, whenever
    this index is representable as an [int]. *)
Theorem removeLastRow_spec (m : t) :
  (rows m = [] -> removeLastRow m = (false, m)) /\
  (forall rs x, rows m = rs ++ [x] ->
     removeLastRow m =
     (true,
      {| rows := rs;
         changes := changes m;
         emitted := emitted m ++
           [rowsAboutToBeRemoved (to_int (size rs)) (to_int (size rs));
            rowsRemoved (to_int (size rs)) (to_int (size rs))] |}) /\
     (size rs <= INT_MAX -> to_int (size rs) = size (rows m) - 1)).
Proof.
  split; [apply removeLastRow_empty|].
  intros rs x Hm. split; [by apply (removeLastRow_snoc m rs x)|].
  intros Hs. rewrite to_int_small.
  - rewrite Hm. unfold size. rewrite length_app. simpl. lia.
  - unfold size, INT_MIN in *. lia.
Qed.

Lemma removeLastRow_spec_witness :
  removeLastRow empty = (false, empty) /\
  (removeLastRow (mk [["0"; "Item"; "noon"]%string] [] []) =
   (true, mk [] [] [rowsAboutToBeRemoved 0 0; rowsRemoved 0 0]) /\
   to_int 0 = 0).
Proof.
  split.
  - apply (removeLastRow_spec empty). reflexivity.
  - destruct (removeLastRow_spec (mk [["0"; "Item"; "noon"]%string] [] []))
      as [_ H].
    destruct (H [] ["0"; "Item"; "noon"]%string eq_refl) as [H1 H2].
    split; [exact H1|]. apply H2. vm_compute. discriminate.
Defined.

(** C8. [data] never reads [rows], or a record of it, outside its range;
    it gives the invalid variant when the row is outside [[0, length)]
    and when the column is outside the fields of the record of that
    row; and for a valid index inside both ranges, read with the
    display role, it gives the stored field. *)
Theorem data_bounds_checked (m : t) (i : QModelIndex) (r : Z) :
  (exists v, data m i r = Ok v) /\
  (row i < 0 \/ size (rows m) <= row i -> data m i r = Ok Invalid) /\
  (forall rec, rows m !! Z.to_nat (row i) = Some rec ->
     column i < 0 \/ size rec <= column i -> data m i r = Ok Invalid) /\
  (forall rec s, isValid i = true -> r = DisplayRole ->
     rows m !! Z.to_nat (row i) = Some rec ->
     rec !! Z.to_nat (column i) = Some s ->
     data m i r = Ok (VString s)).
Proof.
  unfold data, isValid.
  destruct (Z.leb_spec 0 (row i)) as [Hr|Hr];
    destruct (Z.leb_spec 0 (column i)) as [Hc|Hc];
    destruct (has_model i); simpl;
    try (repeat split; eauto; intros; simplify_eq; done).
  destruct (Z.eqb_spec r DisplayRole) as [->|Hrole]; simpl;
    [|repeat split; eauto; intros; simplify_eq; done].
  destruct (Z.leb_spec (size (rows m)) (row i)) as [Hge|Hlt].
  { repeat split; eauto; try done.
    intros rec s _ _ Hrec _. apply lookup_lt_Some in Hrec.
    unfold size in Hge. lia. }
  destruct (at_index_in_range (rows m) (row i)) as (rec0 & Hl0 & ->); [lia|].
  simpl.
  destruct (Z.leb_spec (size rec0) (column i)) as [Hcge|Hclt].
  { repeat split; eauto; try done.
    intros rec s _ _ Hrec Hs. simplify_eq. apply lookup_lt_Some in Hs.
    unfold size in Hcge. lia. }
  destruct (at_index_in_range rec0 (column i)) as (s0 & Hs0 & ->); [lia|].
  simpl. repeat split; eauto.
  - lia.
  - intros rec Hrec. simplify_eq. lia.
  - intros rec s _ _ Hrec Hs. by simplify_eq.
Qed.

(** Any role other than the display role reads nothing. *)
Lemma data_other_role (m : t) (i : QModelIndex) (r : Z) :
  r <> DisplayRole -> data m i r = Ok Invalid.
Proof.
  intros Hr. unfold data.
  destruct (Z.eqb_spec r DisplayRole); [done|]. simpl.
  by rewrite orb_true_r.
Qed.

Lemma data_bounds_checked_witness :
  data (mk [["0"; "Item"; "noon"]%string] [] []) (mkIndex 5 0 true) DisplayRole
    = Ok Invalid /\
  data (mk [["0"; "Item"; "noon"]%string] [] []) (mkIndex 0 3 true) DisplayRole
    = Ok Invalid /\
  data (mk [["0"; "Item"; "noon"]%string] [] []) (mkIndex 0 1 true) DisplayRole
    = Ok (VString "Item").
Proof.
  split; [|split].
  - apply (data_bounds_checked _ (mkIndex 5 0 true) DisplayRole).
    right. vm_compute. discriminate.
  - apply (data_bounds_checked _ (mkIndex 0 3 true) DisplayRole)
      with (rec := ["0"; "Item"; "noon"]%string); [reflexivity|].
    right. vm_compute. discriminate.
  - apply (data_bounds_checked _ (mkIndex 0 1 true) DisplayRole)
      with (rec := ["0"; "Item"; "noon"]%string); reflexivity.
Defined.

End RowStore.

(** ** The undo command *)

Section Command.
Import DataModel.

Lemma AddRowCommand_redo_rows (c : AddRowCommand.t) (m : t) :
  rows (AddRowCommand.redo c m) = rows m ++ [AddRowCommand.row c].
Proof. unfold AddRowCommand.redo. by rewrite insertRowData_eq. Qed.

Lemma AddRowCommand_undo_snoc (c : AddRowCommand.t) (m : t) rs x :
  rows m = rs ++ [x] -> rows (AddRowCommand.undo c m) = rs.
Proof.
  intros Hm. unfold AddRowCommand.undo.
  by rewrite (removeLastRow_snoc m rs x Hm).
Qed.

(** C9. When the store is empty, [removeLastRow] answers [false], and
    [AddRowCommand::undo], which has no result of its own and drops that
    answer, hands back the very state it was given: the same rows, no
    signal added to the log. The caller gets nothing that tells this
    call from one that removed a row. *)
Theorem undo_on_empty_store_unreported (c : AddRowCommand.t) (m : t) :
  rows m = [] ->
  removeLastRow m = (false, m) /\
  AddRowCommand.undo c m = m /\
  QUndoCommand.undo c m = m /\
  emitted (AddRowCommand.undo c m) = emitted m.
Proof.
  intros Hm. pose proof (removeLastRow_empty m Hm) as Hr.
  assert (AddRowCommand.undo c m = m) as Hu.
  { unfold AddRowCommand.undo. by rewrite Hr. }
  repeat split; [done|done|exact Hu|by rewrite Hu].
Qed.

Lemma undo_on_empty_store_unreported_witness :
  removeLastRow empty = (false, empty) /\
  AddRowCommand.undo (AddRowCommand.mk ["0"; "Item"; "noon"]%string) empty
    = empty /\
  QUndoCommand.undo (AddRowCommand.mk ["0"; "Item"; "noon"]%string) empty
    = empty /\
  emitted (AddRowCommand.undo (AddRowCommand.mk ["0"; "Item"; "noon"]%string)
             empty) = emitted empty.
Proof.
  apply (undo_on_empty_store_unreported
           (AddRowCommand.mk ["0"; "Item"; "noon"]%string) empty).
  reflexivity.
Defined.

End Command.

(** ** The undo controller *)

Section Controller.
Context {C S : Type} `{QUndoCommand.t C S}.
Import QUndoStack.

Lemma wf_empty : wf (@empty C).
Proof. unfold wf. simpl. lia. Qed.

Lemma push_eq (cmd : C) (s : S) (u : t C) :
  push cmd (s, u) =
  (QUndoCommand.redo cmd s, mk (done_ops u ++ [cmd]) (index u + 1)).
Proof. reflexivity. Qed.

Lemma undo_at_zero (s : S) (u : t C) :
  index u = 0%nat -> undo (s, u) = (s, u).
Proof. intros Hi. unfold undo. simpl. by rewrite Hi. Qed.

Lemma undo_eq (s : S) (u : t C) (i : nat) (cmd : C) :
  index u = Datatypes.S i -> command_list u !! i = Some cmd ->
  undo (s, u) = (QUndoCommand.undo cmd s, mk (command_list u) i).
Proof.
  intros Hi Hc. unfold undo. simpl. rewrite Hi. simpl.
  by rewrite Nat.sub_0_r, Hc.
Qed.

Lemma redo_at_end (s : S) (u : t C) :
  index u = length (command_list u) -> redo (s, u) = (s, u).
Proof. intros Hi. unfold redo. simpl. by rewrite Hi, Nat.eqb_refl. Qed.

Lemma redo_eq (s : S) (u : t C) (cmd : C) :
  command_list u !! index u = Some cmd ->
  redo (s, u) = (QUndoCommand.redo cmd s, mk (command_list u) (index u + 1)).
Proof.
  intros Hc. unfold redo. simpl. rewrite Hc.
  apply lookup_lt_Some in Hc.
  destruct (Nat.eqb_spec (index u) (length (command_list u))); [lia|done].
Qed.

Lemma done_ops_length (u : t C) : wf u -> length (done_ops u) = index u.
Proof. unfold wf, done_ops. intros Hu. rewrite length_take. lia. Qed.

Lemma wf_push (cmd : C) (s : S) (u : t C) : wf u -> wf (push cmd (s, u)).2.
Proof.
  intros Hu. rewrite push_eq. unfold wf. simpl.
  rewrite length_app, done_ops_length by done. simpl. lia.
Qed.

Lemma wf_undo (s : S) (u : t C) : wf u -> wf (undo (s, u)).2.
Proof.
  intros Hu. unfold undo. simpl.
  destruct (index u =? 0)%nat; [done|].
  destruct (command_list u !! (index u - 1)%nat); [|done].
  unfold wf in *. simpl. lia.
Qed.

Lemma wf_redo (s : S) (u : t C) : wf u -> wf (redo (s, u)).2.
Proof.
  intros Hu. unfold redo. simpl.
  destruct (index u =? length (command_list u))%nat; [done|].
  destruct (command_list u !! index u) eqn:Hc; [|done].
  apply lookup_lt_Some in Hc. unfold wf. simpl. lia.
Qed.

Lemma wf_do_call (w : S * t C) (c : call C) : wf w.2 -> wf (do_call w c).2.
Proof.
  destruct w as [s u]. simpl. intros Hu.
  destruct c as [cmd| |];
    [exact (wf_push cmd s u Hu)|exact (wf_undo s u Hu)|exact (wf_redo s u Hu)].
Qed.

Lemma wf_run (cs : list (call C)) (w : S * t C) : wf w.2 -> wf (run cs w).2.
Proof.
  revert w. induction cs as [|c cs IH]; intros w Hw; [done|].
  simpl. apply IH. by apply wf_do_call.
Qed.

Lemma done_ops_push (cmd : C) (s : S) (u : t C) :
  wf u -> done_ops (push cmd (s, u)).2 = done_ops u ++ [cmd].
Proof.
  intros Hu. rewrite push_eq. unfold done_ops at 1. simpl.
  apply take_ge. rewrite length_app, done_ops_length by done. simpl. lia.
Qed.

(** C3. In a history with an undone operation (cursor below the
    length), [push op2] runs [op2]'s [redo] on the state, keeps exactly
    the operations before the cursor, appends [op2] and moves the cursor
    one further, which is the end of the new history: nothing is left to
    redo, and a [redo] right after the push changes neither the state
    nor the history. *)
Theorem push_truncates_redo_tail (s : S) (u : t C) (op2 : C) :
  wf u -> (index u < length (command_list u))%nat ->
  (push op2 (s, u)).1 = QUndoCommand.redo op2 s /\
  command_list (push op2 (s, u)).2 = done_ops u ++ [op2] /\
  index (push op2 (s, u)).2 = (index u + 1)%nat /\
  index (push op2 (s, u)).2 = length (command_list (push op2 (s, u)).2) /\
  undone_ops (push op2 (s, u)).2 = [] /\
  redo (push op2 (s, u)) = push op2 (s, u).
Proof.
  intros Hu Hlt. rewrite push_eq. simpl.
  assert (index u + 1 = length (done_ops u ++ [op2]))%nat as Hend.
  { rewrite length_app, done_ops_length by done. simpl. lia. }
  repeat split; try done.
  - unfold undone_ops. simpl. apply drop_ge. lia.
  - by apply redo_at_end.
Qed.

End Controller.

Lemma push_truncates_redo_tail_witness :
  QUndoStack.redo
    (QUndoStack.push (AddRowCommand.mk ["0"; "Item"; "later"]%string)
       (DataModel.empty,
        QUndoStack.mk [AddRowCommand.mk ["0"; "Item"; "noon"]%string] 0)) =
  QUndoStack.push (AddRowCommand.mk ["0"; "Item"; "later"]%string)
    (DataModel.empty,
     QUndoStack.mk [AddRowCommand.mk ["0"; "Item"; "noon"]%string] 0).
Proof.
  apply (push_truncates_redo_tail DataModel.empty
           (QUndoStack.mk [AddRowCommand.mk ["0"; "Item"; "noon"]%string] 0)
           (AddRowCommand.mk ["0"; "Item"; "later"]%string)).
  - unfold QUndoStack.wf. simpl. lia.
  - simpl. lia.
Defined.

(** ** Undoable rows: the controller over [AddRowCommand] *)

Section UndoableRows.
Import MainWindow DataModel QUndoStack.

Lemma command_redo_rows (c : AddRowCommand.t) (m : DataModel.t) :
  rows (QUndoCommand.redo c m) = rows m ++ [AddRowCommand.row c].
Proof. apply AddRowCommand_redo_rows. Qed.

Lemma command_undo_snoc (c : AddRowCommand.t) (m : DataModel.t) rs x :
  rows m = rs ++ [x] -> rows (QUndoCommand.undo c m) = rs.
Proof. apply AddRowCommand_undo_snoc. Qed.

Lemma apply_all_rows (ops : list AddRowCommand.t) (m : DataModel.t) :
  rows (apply_all ops m) = rows m ++ (AddRowCommand.row <$> ops).
Proof.
  revert m. induction ops as [|op ops IH]; intros m; simpl.
  - by rewrite app_nil_r.
  - unfold apply_all in *. simpl. rewrite IH.
    rewrite command_redo_rows. by rewrite <- app_assoc.
Qed.

Lemma done_ops_snoc (u : QUndoStack.t AddRowCommand.t) i cmd :
  command_list u !! i = Some cmd ->
  take (Datatypes.S i) (command_list u) = take i (command_list u) ++ [cmd].
Proof. intros Hc. by apply take_S_r. Qed.

Lemma tracks_push base cmd (w : world) :
  tracks base w -> tracks base (push cmd w).
Proof.
  destruct w as [m u]. intros [Hu Hr]. split.
  - exact (wf_push cmd m u Hu).
  - rewrite (done_ops_push cmd m u Hu), push_eq. cbn [fst snd] in *.
    rewrite command_redo_rows, Hr, fmap_app.
    by rewrite <- app_assoc.
Qed.

Lemma tracks_undo base (w : world) : tracks base w -> tracks base (undo w).
Proof.
  destruct w as [m u]. intros [Hu Hr]. simpl in *.
  destruct (index u) as [|i] eqn:Hi.
  { rewrite undo_at_zero by done. by split. }
  destruct (lookup_lt_is_Some_2 (command_list u) i) as [cmd Hc].
  { unfold wf in Hu. lia. }
  rewrite (undo_eq m u i cmd Hi Hc). split.
  - unfold wf in *. simpl. lia.
  - unfold done_ops in *. simpl. rewrite Hi in Hr.
    rewrite (done_ops_snoc u i cmd Hc), fmap_app, app_assoc in Hr.
    exact (command_undo_snoc cmd m _ _ Hr).
Qed.

Lemma tracks_redo base (w : world) : tracks base w -> tracks base (redo w).
Proof.
  destruct w as [m u]. intros [Hu Hr]. simpl in *.
  destruct (decide (index u = length (command_list u))) as [He|Hne].
  { rewrite redo_at_end by done. by split. }
  destruct (lookup_lt_is_Some_2 (command_list u) (index u)) as [cmd Hc].
  { unfold wf in Hu. lia. }
  rewrite (redo_eq m u cmd Hc). split.
  - apply lookup_lt_Some in Hc. unfold wf. simpl. lia.
  - unfold done_ops in *. simpl.
    rewrite Nat.add_1_r, (done_ops_snoc u _ cmd Hc), fmap_app, app_assoc.
    rewrite <- Hr. apply command_redo_rows.
Qed.

Lemma tracks_run base (cs : list (call AddRowCommand.t)) (w : world) :
  tracks base w -> tracks base (run cs w).
Proof.
  revert w. induction cs as [|c cs IH]; intros w Hw; [done|].
  simpl. apply IH.
  destruct c; simpl; [by apply tracks_push|by apply tracks_undo|by apply tracks_redo].
Qed.

(** C1. After any sequence of [push], [undo] and [redo] calls on the
    controller, started with an empty store and an empty history, the
    rows of the store are the rows obtained by running [redo] of the
    operations before the final cursor, in order, on an empty store;
    they are the records of these operations. *)
Theorem replay_equals_effective_ops (cs : list (call AddRowCommand.t)) :
  rows (run cs (DataModel.empty, QUndoStack.empty)).1 =
    rows (apply_all (done_ops (run cs (DataModel.empty, QUndoStack.empty)).2)
            DataModel.empty) /\
  rows (run cs (DataModel.empty, QUndoStack.empty)).1 =
    AddRowCommand.row <$> done_ops (run cs (DataModel.empty, QUndoStack.empty)).2.
Proof.
  destruct (tracks_run [] cs (DataModel.empty, QUndoStack.empty)) as [_ Hr].
  { split; [apply wf_empty|done]. }
  rewrite apply_all_rows. simpl in *. by rewrite Hr.
Qed.

(** C2. On any store and any history that satisfies the cursor
    invariant, [push op] leaves the rows of the store followed by [op]'s
    record, and an [undo] right after it leaves the rows the store had
    before the push, with the cursor back where it was. *)
Theorem undo_after_push_roundtrip (m : DataModel.t)
    (u : QUndoStack.t AddRowCommand.t) (op : AddRowCommand.t) :
  wf u ->
  rows (push op (m, u)).1 = rows m ++ [AddRowCommand.row op] /\
  rows (undo (push op (m, u))).1 = rows m /\
  index (undo (push op (m, u))).2 = index u.
Proof.
  intros Hu. rewrite push_eq. simpl.
  split; [apply command_redo_rows|].
  rewrite (undo_eq _ _ (index u) op); simpl.
  - split; [|done].
    apply (command_undo_snoc op _ (rows m) (AddRowCommand.row op)).
    apply command_redo_rows.
  - lia.
  - rewrite lookup_app_r; rewrite done_ops_length by done; [|lia].
    by rewrite Nat.sub_diag.
Qed.

Lemma undo_after_push_roundtrip_witness :
  rows (undo (push (AddRowCommand.mk ["1"; "Item"; "later"]%string)
                (DataModel.mk [["0"; "Item"; "noon"]%string] [] [],
                 QUndoStack.mk
                   [AddRowCommand.mk ["0"; "Item"; "noon"]%string] 1))).1 =
  [["0"; "Item"; "noon"]%string].
Proof.
  apply (undo_after_push_roundtrip
           (DataModel.mk [["0"; "Item"; "noon"]%string] [] [])
           (QUndoStack.mk [AddRowCommand.mk ["0"; "Item"; "noon"]%string] 1)
           (AddRowCommand.mk ["1"; "Item"; "later"]%string)).
  unfold wf. simpl. lia.
Defined.

(** The controller does not look at the store: with an operation to undo
    and an empty store, [undo] moves the cursor back all the same. *)
Lemma undo_over_empty_store (m : DataModel.t)
    (u : QUndoStack.t AddRowCommand.t) (i : nat) :
  wf u -> index u = Datatypes.S i -> rows m = [] ->
  undo (m, u) = (m, QUndoStack.mk (command_list u) i).
Proof.
  intros Hu Hi Hm.
  destruct (lookup_lt_is_Some_2 (command_list u) i) as [cmd Hc].
  { unfold wf in Hu. lia. }
  rewrite (undo_eq m u i cmd Hi Hc). f_equal.
  change (QUndoCommand.undo cmd m) with (AddRowCommand.undo cmd m).
  unfold AddRowCommand.undo. by rewrite removeLastRow_empty.
Qed.

End UndoableRows.

(** ** The window: records made by "Add Row" *)

Section Window.
Import DataModel QUndoStack MainWindow.

Lemma consistent_init : consistent init.
Proof.
  split; [split; [apply wf_empty|done]|].
  intros k c Hc. simpl in Hc. by rewrite lookup_nil in Hc.
Qed.

Lemma tracks_size (w : MainWindow.t) :
  tracks [] (model w, undo w) ->
  size (rows (model w)) = Z.of_nat (index (undo w)).
Proof.
  intros [Hu Hr]. cbn [fst snd] in *. unfold size.
  rewrite Hr. simpl. by rewrite length_fmap, done_ops_length.
Qed.

Lemma consistent_add_clicked (now : string) (w : MainWindow.t) :
  consistent w -> consistent (add_clicked now w).
Proof.
  intros [Ht Hn]. unfold add_clicked, of_pair. split.
  - cbn [model undo]. rewrite <- surjective_pairing. by apply tracks_push.
  - cbn [undo]. rewrite push_eq. cbn [snd command_list].
    intros k c Hc. cbn [command_list] in Hc.
    destruct (decide (k < length (done_ops (undo w)))%nat) as [Hlt|Hge].
    + rewrite lookup_app_l in Hc by done.
      unfold done_ops in Hc. apply lookup_take_Some in Hc as [Hc _].
      by apply Hn.
    + rewrite lookup_app_r in Hc by lia.
      apply list_lookup_singleton_Some in Hc as [Hk <-].
      destruct Ht as [Hu Hr]. cbn [fst snd] in *.
      rewrite done_ops_length in * by done.
      assert (k = index (undo w)) as -> by lia.
      split; [|done]. cbn. unfold rowCount.
      by rewrite (tracks_size w (conj Hu Hr)).
Qed.

Lemma undo_command_list (m : DataModel.t) (u : QUndoStack.t AddRowCommand.t) :
  command_list (QUndoStack.undo (m, u)).2 = command_list u.
Proof.
  unfold QUndoStack.undo. cbn [fst snd].
  destruct (index u =? 0)%nat; [done|].
  by destruct (command_list u !! (index u - 1)%nat).
Qed.

Lemma redo_command_list (m : DataModel.t) (u : QUndoStack.t AddRowCommand.t) :
  command_list (QUndoStack.redo (m, u)).2 = command_list u.
Proof.
  unfold QUndoStack.redo. cbn [fst snd].
  destruct (index u =? length (command_list u))%nat; [done|].
  by destruct (command_list u !! index u).
Qed.

Lemma consistent_handle (w : MainWindow.t) (a : action) :
  consistent w -> consistent (handle w a).
Proof.
  destruct a as [now| |]; cbn [handle]; [apply consistent_add_clicked| |].
  - intros [Ht Hn]. unfold undo_triggered, of_pair. split.
    + cbn [model undo]. rewrite <- surjective_pairing. by apply tracks_undo.
    + cbn [undo]. unfold numbered. by rewrite undo_command_list.
  - intros [Ht Hn]. unfold redo_triggered, of_pair. split.
    + cbn [model undo]. rewrite <- surjective_pairing. by apply tracks_redo.
    + cbn [undo]. unfold numbered. by rewrite redo_command_list.
Qed.

Lemma consistent_handle_all (acts : list action) (w : MainWindow.t) :
  consistent w -> consistent (handle_all acts w).
Proof.
  revert w. induction acts as [|a acts IH]; intros w Hw; [done|].
  simpl. apply IH. by apply consistent_handle.
Qed.

(** A stored record is the record of the operation at its index. *)
Lemma consistent_stored (w : MainWindow.t) (i : nat) (r : list string) :
  consistent w -> rows (model w) !! i = Some r ->
  id_field r = Some (QString_number (to_int (Z.of_nat i))) /\
  name_field r = Some "Item"%string.
Proof.
  intros [[Hu Hr] Hn] Hi. cbn [fst snd] in *. rewrite Hr in Hi. simpl in Hi.
  apply list_lookup_fmap_Some in Hi as (c & -> & Hc).
  unfold done_ops in Hc. apply lookup_take_Some in Hc as [Hc _].
  by apply Hn.
Qed.

Lemma stored_id_is_index (acts : list action) (i : nat) (r : list string) :
  rows (model (handle_all acts init)) !! i = Some r ->
  Z.of_nat i <= INT_MAX ->
  id_field r = Some (QString_number (Z.of_nat i)).
Proof.
  intros Hi Hle.
  destruct (consistent_stored _ i r (consistent_handle_all acts init consistent_init) Hi)
    as [Hid _].
  rewrite to_int_small in Hid; [done|]. unfold INT_MIN, INT_MAX in *. lia.
Qed.

Lemma stored_ids_distinct (acts : list action) (i j : nat)
    (r r' : list string) :
  rows (model (handle_all acts init)) !! i = Some r ->
  rows (model (handle_all acts init)) !! j = Some r' ->
  Z.of_nat i <= INT_MAX -> Z.of_nat j <= INT_MAX ->
  id_field r = id_field r' -> i = j.
Proof.
  intros Hi Hj Hile Hjle Heq.
  rewrite (stored_id_is_index acts i r Hi Hile) in Heq.
  rewrite (stored_id_is_index acts j r' Hj Hjle) in Heq.
  injection Heq as Heq. unfold QString_number in Heq.
  apply (inj pretty) in Heq. lia.
Qed.

Lemma add_clicked_eq (now : string) (w : MainWindow.t) :
  add_clicked now w =
  MainWindow.mk
    (DataModel.insertRowData (new_row (model w) now) (model w))
    (QUndoStack.mk
       (done_ops (undo w) ++ [AddRowCommand.mk (new_row (model w) now)])
       (index (undo w) + 1)).
Proof. reflexivity. Qed.

(** Every record of the history, done or undone, carries its position. *)
Lemma history_id_is_position (acts : list action) (k : nat)
    (c : AddRowCommand.t) :
  command_list (undo (handle_all acts init)) !! k = Some c ->
  Z.of_nat k <= INT_MAX ->
  id_field (AddRowCommand.row c) = Some (QString_number (Z.of_nat k)) /\
  name_field (AddRowCommand.row c) = Some "Item"%string.
Proof.
  intros Hk Hle.
  destruct (consistent_handle_all acts init consistent_init) as [_ Hn].
  destruct (Hn k c Hk) as [Hid Hname]. split; [|done].
  rewrite to_int_small in Hid; [done|]. unfold INT_MIN, INT_MAX in *. lia.
Qed.

(** A record of the history that has the ID of the record "Add Row" is
    about to make is the first record of the redo tail; the push drops
    that tail and puts the new record at its position. *)
Lemma reused_id_at_cursor (acts : list action) (now : string) (j : nat)
    (c : AddRowCommand.t) :
  command_list (undo (handle_all acts init)) !! j = Some c ->
  Z.of_nat (length (command_list (undo (handle_all acts init)))) <= INT_MAX ->
  id_field (AddRowCommand.row c) =
    id_field (new_row (model (handle_all acts init)) now) ->
  j = index (undo (handle_all acts init)) /\
  undone_ops (undo (handle_all acts init)) !! 0%nat = Some c /\
  command_list (undo (add_clicked now (handle_all acts init))) !! j =
    Some (AddRowCommand.mk (new_row (model (handle_all acts init)) now)) /\
  length (command_list (undo (add_clicked now (handle_all acts init)))) =
    Datatypes.S j.
Proof.
  intros Hj Hlen Hid.
  pose proof (consistent_handle_all acts init consistent_init) as [Ht Hn].
  set (w := handle_all acts init) in *.
  pose proof (tracks_size w Ht) as Hsz. destruct Ht as [Hu _].
  unfold wf in Hu. cbn [snd] in Hu.
  pose proof (lookup_lt_Some _ _ _ Hj) as Hjlt.
  destruct (Hn j c Hj) as [Hc _]. rewrite Hc in Hid.
  cbn [new_row id_field lookup list_lookup] in Hid. unfold rowCount in Hid.
  rewrite Hsz in Hid.
  rewrite !to_int_small in Hid by (unfold INT_MIN, INT_MAX in *; lia).
  injection Hid as Hid. unfold QString_number in Hid.
  apply (inj pretty) in Hid.
  assert (j = index (undo w)) as Hji by lia.
  split; [done|]. split.
  { unfold undone_ops. rewrite lookup_drop, Nat.add_0_r. by rewrite <- Hji. }
  rewrite add_clicked_eq. cbn [undo command_list].
  assert (length (done_ops (undo w)) = j) as Hdone.
  { rewrite Hji. apply done_ops_length. exact Hu. }
  split.
  - rewrite lookup_app_r by lia. by rewrite Hdone, Nat.sub_diag.
  - rewrite length_app, Hdone. simpl. lia.
Qed.

(** C10, as amended. The record made by the handler of "Add Row" has the
    decimal text of [rowCount] at that moment as its ID field and "Item"
    as its Name field; the handler pushes one operation carrying this
    record, which appends the record to the store. Through every
    sequence of "Add Row", Undo and Redo, started from the empty window:
    - a stored record whose index is representable as an [int] has the
      decimal text of its own index as ID field and "Item" as Name field,
      and the ID fields of two such records at different indices differ;
    - the same holds for every record of the history, done or undone, at
      its position in the history;
    - a record of the history has the ID of the record that "Add Row" is
      about to make only if it is the first record of the redo tail, at
      the cursor; the push then drops it with the rest of that tail and
      the new record takes its position, as the last of the history.
    Such a reuse happens: after "Add Row" and Undo, the next "Add Row"
    makes a record with the ID of the undone one. *)
Theorem add_row_id_is_index (w : MainWindow.t) (now : string)
    (acts : list action) :
  (id_field (new_row (model w) now) =
     Some (QString_number (rowCount (model w))) /\
   name_field (new_row (model w) now) = Some "Item"%string /\
   command_list (undo (add_clicked now w)) =
     done_ops (undo w) ++ [AddRowCommand.mk (new_row (model w) now)] /\
   rows (model (add_clicked now w)) =
     rows (model w) ++ [new_row (model w) now]) /\
  (forall i r, rows (model (handle_all acts init)) !! i = Some r ->
     Z.of_nat i <= INT_MAX ->
     id_field r = Some (QString_number (Z.of_nat i)) /\
     name_field r = Some "Item"%string) /\
  (forall i j r r',
     rows (model (handle_all acts init)) !! i = Some r ->
     rows (model (handle_all acts init)) !! j = Some r' ->
     Z.of_nat i <= INT_MAX -> Z.of_nat j <= INT_MAX ->
     id_field r = id_field r' -> i = j) /\
  (forall k c, command_list (undo (handle_all acts init)) !! k = Some c ->
     Z.of_nat k <= INT_MAX ->
     id_field (AddRowCommand.row c) = Some (QString_number (Z.of_nat k)) /\
     name_field (AddRowCommand.row c) = Some "Item"%string) /\
  (forall j c, command_list (undo (handle_all acts init)) !! j = Some c ->
     Z.of_nat (length (command_list (undo (handle_all acts init)))) <= INT_MAX ->
     id_field (AddRowCommand.row c) =
       id_field (new_row (model (handle_all acts init)) now) ->
     j = index (undo (handle_all acts init)) /\
     undone_ops (undo (handle_all acts init)) !! 0%nat = Some c /\
     command_list (undo (add_clicked now (handle_all acts init))) !! j =
       Some (AddRowCommand.mk (new_row (model (handle_all acts init)) now)) /\
     length (command_list (undo (add_clicked now (handle_all acts init)))) =
       Datatypes.S j) /\
  (exists c,
     undone_ops (undo (handle_all [AddRow "a"; EditUndo]%string init)) !! 0%nat =
       Some c /\
     id_field (AddRowCommand.row c) =
       id_field (new_row (model (handle_all [AddRow "a"; EditUndo]%string init))
                   "b")).
Proof.
  split; [|split; [|split; [|split; [|split]]]].
  - rewrite add_clicked_eq. cbn [model undo command_list].
    by rewrite insertRowData_eq.
  - intros i r Hi Hle. split; [by apply (stored_id_is_index acts)|].
    by destruct (consistent_stored _ i r
                   (consistent_handle_all acts init consistent_init) Hi).
  - apply stored_ids_distinct.
  - apply history_id_is_position.
  - apply reused_id_at_cursor.
  - by exists (AddRowCommand.mk ["0"; "Item"; "a"]%string).
Qed.

Lemma add_row_id_is_index_witness :
  rows (model (handle_all
                 [AddRow "a"; AddRow "b"; EditUndo; EditUndo; EditRedo;
                  AddRow "c"]%string init)) !! 1%nat =
    Some ["1"; "Item"; "c"]%string /\
  (id_field ["1"; "Item"; "c"]%string = Some (QString_number 1) /\
   name_field ["1"; "Item"; "c"]%string = Some "Item"%string) /\
  1%nat = index (undo (handle_all [AddRow "a"; AddRow "b"; EditUndo]%string
                         init)) /\
  command_list (undo (add_clicked "c"
                        (handle_all [AddRow "a"; AddRow "b"; EditUndo]%string
                           init))) !! 1%nat =
    Some (AddRowCommand.mk ["1"; "Item"; "c"]%string).
Proof.
  split; [reflexivity|].
  destruct (add_row_id_is_index init "d"%string
              [AddRow "a"; AddRow "b"; EditUndo; EditUndo; EditRedo;
               AddRow "c"]%string) as (_ & Hstored & _).
  destruct (add_row_id_is_index init "c"%string
              [AddRow "a"; AddRow "b"; EditUndo]%string)
    as (_ & _ & _ & _ & Hreuse & _).
  split.
  { apply (Hstored 1%nat); [reflexivity|]. vm_compute. discriminate. }
  destruct (Hreuse 1%nat (AddRowCommand.mk ["1"; "Item"; "b"]%string))
    as (Hcur & _ & Hnew & _).
  - reflexivity.
  - vm_compute. discriminate.
  - reflexivity.
  - split; [exact Hcur|exact Hnew].
Defined.

(** The second half of C10 as it was stated fails: no sequence of
    "Add Row", Undo and Redo leaves in the store a record, at an index
    representable as an [int], whose ID field is not the decimal text of
    that index. *)
Lemma add_row_id_off_index_refuted :
  ~ exists (acts : list action) (i : nat) (r : list string),
      rows (model (handle_all acts init)) !! i = Some r /\
      Z.of_nat i <= INT_MAX /\
      id_field r <> Some (QString_number (Z.of_nat i)).
Proof.
  intros (acts & i & r & Hi & Hle & Hne).
  apply Hne. by apply (stored_id_is_index acts).
Qed.

(** What does repeat is the ID of a record that was dropped from the
    history and the ID of the record pushed in its place. *)
Example add_undo_add_reuses_id :
  command_list (undo (handle_all [AddRow "a"; EditUndo]%string init)) =
    [AddRowCommand.mk ["0"; "Item"; "a"]%string] /\
  command_list (undo (handle_all [AddRow "a"; EditUndo; AddRow "b"]%string init)) =
    [AddRowCommand.mk ["0"; "Item"; "b"]%string] /\
  rows (model (handle_all [AddRow "a"; EditUndo; AddRow "b"]%string init)) =
    [["0"; "Item"; "b"]%string].
Proof. repeat split. Qed.

End Window.

(** ** The worker *)

Section WorkerRun.
Import Worker.

Lemma seqZ_snoc (n : Z) : 0 <= n -> seqZ 0 (n + 1) = seqZ 0 n ++ [n].
Proof.
  intros Hn. rewrite seqZ_app by lia. by f_equal.
Qed.

Lemma inv_init : inv init.
Proof. exists 0. split; [lia|]. cbn [init at_pc sent]. done. Qed.

Lemma inv_step (w : t) : inv w -> inv (step w).
Proof.
  intros (n & Hn & Hw). unfold step.
  destruct (at_pc w) as [i|i|i| |] eqn:Hpc.
  - destruct Hw as [-> Hs].
    destruct (Z.leb_spec n 100) as [Hle|Hgt]; simpl;
      [destruct (stop w) eqn:Hst; simpl|].
    + exists n. split; [done|]. simpl. split; [done|]. by right.
    + exists n. split; [done|]. simpl. done.
    + exists n. split; [done|]. simpl. split; [done|]. left. lia.
  - destruct Hw as (-> & Hle & Hs). exists n. split; [done|]. by simpl.
  - destruct Hw as (-> & Hle & Hs). exists (n + 1). split; [lia|]. simpl.
    split; [done|]. rewrite Hs, seqZ_snoc, fmap_app by lia. done.
  - destruct Hw as [Hs Hor]. exists n. split; [done|]. simpl.
    by rewrite Hs.
  - exists n. split; [done|]. by rewrite Hpc.
Qed.

Lemma inv_cancel (w : t) : inv w -> inv (cancel w).
Proof.
  intros (n & Hn & Hw). exists n. split; [done|]. unfold cancel. simpl.
  destruct (at_pc w); try done.
  - destruct Hw as [Hs _]. split; [done|]. by right.
  - destruct Hw as [Hs _]. split; [done|]. by right.
Qed.

Lemma inv_do_event (w : t) (e : event) : inv w -> inv (do_event w e).
Proof. destruct e; [apply inv_step|apply inv_cancel]. Qed.

Lemma inv_run (sch : list event) (w : t) : inv w -> inv (run sch w).
Proof.
  revert w. induction sch as [|e sch IH]; intros w Hw; [done|].
  simpl. apply IH. by apply inv_do_event.
Qed.

Lemma run_app (sch1 sch2 : list event) (w : t) :
  run (sch1 ++ sch2) w = run sch2 (run sch1 w).
Proof. unfold run. apply foldl_app. Qed.

Lemma progress_values_fmap (l : list Z) :
  progress_values (progress <$> l) = l.
Proof. induction l as [|x l IH]; [done|]. simpl. by f_equal. Qed.

Lemma progress_values_app (l1 l2 : list Signal) :
  progress_values (l1 ++ l2) = progress_values l1 ++ progress_values l2.
Proof. apply omap_app. Qed.

Lemma finished_count_fmap (l : list Z) :
  finished_count (progress <$> l) = 0%nat.
Proof.
  unfold finished_count. induction l as [|x l IH]; [done|].
  simpl. by rewrite filter_cons_False.
Qed.

Lemma finished_count_app (l1 l2 : list Signal) :
  finished_count (l1 ++ l2) = (finished_count l1 + finished_count l2)%nat.
Proof. unfold finished_count. by rewrite filter_app, length_app. Qed.

(** The values sent so far, read off the invariant. *)
Lemma inv_progress_values (w : t) :
  inv w ->
  progress_values (sent w) = seqZ 0 (size (progress_values (sent w))) /\
  size (progress_values (sent w)) <= 101 /\
  (loop_left w = true ->
   size (progress_values (sent w)) = 101 \/ stop w = true).
Proof.
  intros (n & Hn & Hw).
  assert (progress_values (sent w) = seqZ 0 n /\
          (loop_left w = true -> n = 101 \/ stop w = true)) as [Hv Hleft].
  { unfold loop_left.
    destruct (at_pc w);
      [destruct Hw as [_ Hs]|destruct Hw as (_ & _ & Hs)
      |destruct Hw as (_ & _ & Hs)|destruct Hw as [Hs Hor]
      |destruct Hw as [Hs Hor]];
      rewrite Hs, ?progress_values_app, progress_values_fmap;
      simpl; rewrite ?app_nil_r; by split. }
  assert (size (progress_values (sent w)) = n) as Hsz.
  { unfold size. rewrite Hv, length_seqZ. lia. }
  rewrite Hsz. split; [done|]. split; [lia|done].
Qed.

(** *** Termination and the completion signal *)

Lemma fuel_bounds (w : t) :
  inv w -> 0 <= fuel w /\ (fuel w <= 0 -> at_pc w = Returned).
Proof.
  intros (n & Hn & Hw). unfold fuel.
  destruct (at_pc w); destruct Hw as [Hi Hw]; subst; split; try done; lia.
Qed.

Lemma fuel_step (w : t) : inv w -> fuel (step w) <= Z.max 0 (fuel w - 1).
Proof.
  intros (n & Hn & Hw). unfold step, fuel at 2.
  destruct (at_pc w) as [i|i|i| |] eqn:Hpc.
  - destruct Hw as [-> _].
    destruct ((n <=? 100) && negb (stop w)); unfold fuel; simpl; lia.
  - destruct Hw as (-> & _ & _). unfold fuel. simpl. lia.
  - destruct Hw as (-> & _ & _). unfold fuel. simpl. lia.
  - unfold fuel. simpl. lia.
  - unfold fuel. rewrite Hpc. lia.
Qed.

Lemma ticks_cons_Tick (sch : list event) :
  ticks (Tick :: sch) = Datatypes.S (ticks sch).
Proof. unfold ticks. by rewrite filter_cons_True. Qed.

Lemma ticks_cons_Cancel (sch : list event) :
  ticks (Cancel :: sch) = ticks sch.
Proof. unfold ticks. by rewrite filter_cons_False. Qed.

Lemma fuel_run (sch : list event) (w : t) :
  inv w -> fuel (run sch w) <= Z.max 0 (fuel w - Z.of_nat (ticks sch)).
Proof.
  revert w. induction sch as [|e sch IH]; intros w Hw.
  - simpl. unfold ticks. simpl. pose proof (fuel_bounds w Hw). lia.
  - destruct e; simpl.
    + rewrite ticks_cons_Tick.
      pose proof (IH (step w) (inv_step w Hw)).
      pose proof (fuel_step w Hw). lia.
    + rewrite ticks_cons_Cancel. exact (IH (cancel w) (inv_cancel w Hw)).
Qed.

Lemma returned_stable (sch : list event) (w : t) :
  at_pc w = Returned -> sent (run sch w) = sent w.
Proof.
  revert w. induction sch as [|e sch IH]; intros w Hw; [done|].
  simpl. destruct e; simpl.
  - unfold step. rewrite Hw. destruct w; simpl in *. subst. by apply IH.
  - rewrite IH; done.
Qed.

Lemma inv_sent_shape (w : t) :
  inv w ->
  (sent w = progress <$> progress_values (sent w) /\
   finished_count (sent w) = 0%nat /\ at_pc w <> Returned) \/
  (sent w = (progress <$> progress_values (sent w)) ++ [finished] /\
   finished_count (sent w) = 1%nat /\ at_pc w = Returned).
Proof.
  intros (n & Hn & Hw).
  destruct (at_pc w);
    [destruct Hw as [_ Hs]|destruct Hw as (_ & _ & Hs)
    |destruct Hw as (_ & _ & Hs)|destruct Hw as [Hs _]
    |destruct Hw as [Hs _]];
    rewrite Hs, ?progress_values_app, ?finished_count_app,
      progress_values_fmap, finished_count_fmap;
    simpl; rewrite ?app_nil_r; [left|left|left|left|right]; done.
Qed.

(** C5. At every point of every run the signals sent are the progress
    signals alone, with no [finished] yet, or the progress signals
    followed by one [finished] as the last signal. Under every
    interleaving with calls of [cancel], wherever they fall (before the
    first action of the run too), once the run has been given 305
    actions it has returned, has sent [finished] exactly once, after all
    its progress signals, and sends nothing afterwards. *)
Theorem finished_exactly_once (sch sch' : list event) :
  ((sent (run sch init) = progress <$> progress_values (sent (run sch init)) /\
    finished_count (sent (run sch init)) = 0%nat) \/
   (sent (run sch init) =
      (progress <$> progress_values (sent (run sch init))) ++ [finished] /\
    finished_count (sent (run sch init)) = 1%nat)) /\
  ((305 <= ticks sch)%nat ->
   at_pc (run sch init) = Returned /\
   finished_count (sent (run sch init)) = 1%nat /\
   sent (run sch init) =
     (progress <$> progress_values (sent (run sch init))) ++ [finished] /\
   sent (run (sch ++ sch') init) = sent (run sch init)).
Proof.
  pose proof (inv_run sch init inv_init) as Hinv.
  split.
  - destruct (inv_sent_shape _ Hinv) as [(H1 & H2 & _)|(H1 & H2 & _)];
      [left|right]; done.
  - intros Hticks.
    assert (at_pc (run sch init) = Returned) as Hret.
    { apply fuel_bounds; [done|].
      pose proof (fuel_run sch init inv_init) as Hf.
      change (fuel init) with 305 in Hf. lia. }
    split; [done|].
    destruct (inv_sent_shape _ Hinv) as [(_ & _ & Hn)|(H1 & H2 & _)];
      [done|].
    repeat split; [done|done|].
    rewrite run_app. by apply returned_stable.
Qed.

Lemma finished_exactly_once_witness :
  at_pc (run (Cancel :: repeat Tick 305) init) = Returned /\
  finished_count (sent (run (Cancel :: repeat Tick 305) init)) = 1%nat /\
  sent (run (Cancel :: repeat Tick 305) init) =
    (progress <$>
       progress_values (sent (run (Cancel :: repeat Tick 305) init))) ++
    [finished] /\
  sent (run ((Cancel :: repeat Tick 305) ++ [Tick; Cancel]) init) =
    sent (run (Cancel :: repeat Tick 305) init).
Proof.
  apply (finished_exactly_once (Cancel :: repeat Tick 305) [Tick; Cancel]).
  vm_compute. apply le_n.
Defined.

(** *** Cancellation *)

Lemma pending_step (w : t) :
  stop w = true ->
  stop (step w) = true /\
  exists d, sent (step w) = sent w ++ d /\ d ++ pending (step w) = pending w.
Proof.
  intros Hst. unfold step, pending at 2.
  destruct (at_pc w) as [i|i|i| |] eqn:Hpc.
  - rewrite Hst, andb_false_r. split; [done|].
    exists []. by rewrite app_nil_r.
  - split; [done|]. exists []. by rewrite app_nil_r.
  - split; [done|]. by exists [progress i].
  - split; [done|]. by exists [finished].
  - split; [done|]. exists []. unfold pending. by rewrite app_nil_r, Hpc.
Qed.

Lemma pending_run (sch : list event) (w : t) :
  stop w = true ->
  exists extra,
    sent (run sch w) = sent w ++ extra /\
    extra ++ pending (run sch w) = pending w.
Proof.
  revert w. induction sch as [|e sch IH]; intros w Hst.
  - exists []. by rewrite app_nil_r.
  - simpl. destruct e; simpl.
    + destruct (pending_step w Hst) as (Hst' & d & Hd & Hp).
      destruct (IH (step w) Hst') as (extra & He & Hq).
      exists (d ++ extra). rewrite He, Hd, <- !app_assoc.
      split; [done|]. by rewrite Hq.
    + apply (IH (cancel w)). done.
Qed.

Lemma pending_values (w : t) :
  inv w ->
  progress_values (pending w) = [] \/
  progress_values (pending w) = [size (progress_values (sent w))].
Proof.
  intros (n & Hn & Hw). unfold pending.
  destruct (at_pc w); try (by left);
    destruct Hw as (-> & _ & Hs); right; simpl;
    rewrite Hs, progress_values_fmap; unfold size;
    rewrite length_seqZ; do 2 f_equal; lia.
Qed.

(** C6. Whenever [cancel] is called, at whatever point of the run, the
    signals sent from then on, under every continuation, contain at most
    one progress signal, and its value is the number of progress signals
    sent before the call, that is, one more than the last value sent
    before the call (or 0 when none was sent). No value sent by the run
    exceeds that number. *)
Theorem at_most_one_progress_after_cancel (sch1 sch2 : list event) :
  exists extra,
    sent (run sch2 (cancel (run sch1 init))) =
      sent (run sch1 init) ++ extra /\
    (progress_values extra = [] \/
     progress_values extra =
       [size (progress_values (sent (run sch1 init)))]) /\
    Forall (fun v => v <= size (progress_values (sent (run sch1 init))))
      (progress_values (sent (run sch2 (cancel (run sch1 init))))).
Proof.
  pose proof (inv_run sch1 init inv_init) as Hinv.
  set (w1 := run sch1 init) in *.
  destruct (pending_run sch2 (cancel w1) eq_refl) as (extra & He & Hp).
  change (sent (cancel w1)) with (sent w1) in He.
  change (pending (cancel w1)) with (pending w1) in Hp.
  assert (progress_values extra = [] \/
          progress_values extra = [size (progress_values (sent w1))]) as Hex.
  { apply (f_equal progress_values) in Hp.
    rewrite progress_values_app in Hp.
    destruct (pending_values w1 Hinv) as [Hnil|Hone]; rewrite ?Hnil, ?Hone in Hp.
    - left. by apply app_eq_nil in Hp as [? _].
    - destruct (progress_values extra) as [|v l]; [by left|right].
      simpl in Hp. injection Hp as -> Hl.
      by apply app_eq_nil in Hl as [-> _]. }
  exists extra. split; [done|]. split; [done|].
  rewrite He, progress_values_app. apply Forall_app. split.
  - destruct (inv_progress_values w1 Hinv) as (Hv & _ & _).
    rewrite Hv at 1. apply Forall_seqZ. lia.
  - destruct Hex as [->| ->]; [done|]. by apply Forall_singleton.
Qed.

End WorkerRun.


(** ** More on the row store: headers, cells, signals *)

Section RowStoreCells.
Import DataModel.

(** What [data] reads, in terms of the rows alone. *)
Lemma data_lookup (m : t) (i : QModelIndex) (r : Z) :
  data m i r =
  if isValid i && (r =? DisplayRole) then
    match rows m !! Z.to_nat (row i) with
    | Some rec =>
        match rec !! Z.to_nat (column i) with
        | Some s => Ok (VString s)
        | None => Ok Invalid
        end
    | None => Ok Invalid
    end
  else Ok Invalid.
Proof.
  unfold data. destruct (isValid i) eqn:Hv; simpl; [|done].
  destruct (r =? DisplayRole); simpl; [|done].
  unfold isValid in Hv. apply andb_prop in Hv as [Hv _].
  apply andb_prop in Hv as [Hr Hc].
  apply Z.leb_le in Hr. apply Z.leb_le in Hc.
  destruct (Z.leb_spec (size (rows m)) (row i)) as [Hge|Hlt].
  { rewrite lookup_ge_None_2; [done|]. unfold size in Hge. lia. }
  destruct (at_index_in_range (rows m) (row i)) as (rec & -> & ->); [lia|].
  simpl.
  destruct (Z.leb_spec (size rec) (column i)) as [Hcge|Hclt].
  { rewrite lookup_ge_None_2; [done|]. unfold size in Hcge. lia. }
  by destruct (at_index_in_range rec (column i)) as (s & -> & ->); [lia|].
Qed.

(** X1. [headerData] never indexes [headers] out of range. For the
    horizontal orientation and the display role it gives a header text for
    every section in [[0, columnCount)]; for any other orientation or
    role, and for every section outside [[0, columnCount)], it gives the
    invalid variant. *)
Theorem headerData_spec (m : t) (s : Z) (o : Orientation) (r : Z) :
  (exists v, headerData m s o r = Ok v) /\
  (o = Horizontal -> r = DisplayRole -> 0 <= s < columnCount m ->
   exists h, headers !! Z.to_nat s = Some h /\
             headerData m s o r = Ok (VString h)) /\
  (o <> Horizontal \/ r <> DisplayRole \/ s < 0 \/ columnCount m <= s ->
   headerData m s o r = Ok Invalid).
Proof.
  unfold headerData, columnCount.
  change (size headers) with 3.
  destruct (decide (o = Horizontal)) as [->|Ho].
  2: { rewrite bool_decide_eq_false_2 by done. simpl.
       repeat split; eauto; intros; done. }
  rewrite bool_decide_eq_true_2 by done.
  destruct (Z.eqb_spec r DisplayRole) as [->|Hr]; simpl.
  2: { repeat split; eauto; intros; done. }
  destruct (Z.leb_spec 0 s) as [Hs0|Hs0]; simpl.
  2: { repeat split; eauto; intros; try done; lia. }
  destruct (Z.ltb_spec s 3) as [Hs3|Hs3].
  2: { repeat split; eauto; intros; try done; lia. }
  destruct (at_index_in_range headers s) as (h & Hh & ->).
  { change (size headers) with 3. lia. }
  simpl. repeat split; eauto.
  intros [?|[?|[?|?]]]; try done; lia.
Qed.

Lemma headerData_spec_witness :
  exists h, headers !! Z.to_nat 2 = Some h /\
    headerData empty 2 Horizontal DisplayRole = Ok (VString h).
Proof.
  apply (headerData_spec empty 2 Horizontal DisplayRole);
    [reflexivity|reflexivity|].
  unfold columnCount. lia.
Defined.

(** X2. Reading back after [insertRowData]: every cell of a row that was
    there before reads as before, under every role; the cells of the new
    row, read through a valid index with the display role, are the
    fields of the inserted record. *)
Theorem data_after_insertRowData (m : t) (rec : list string)
    (i : QModelIndex) (r : Z) :
  (row i < size (rows m) -> data (insertRowData rec m) i r = data m i r) /\
  (forall s, isValid i = true -> r = DisplayRole ->
     row i = size (rows m) -> rec !! Z.to_nat (column i) = Some s ->
     data (insertRowData rec m) i r = Ok (VString s)).
Proof.
  rewrite !data_lookup, insertRowData_eq. cbn [rows]. split.
  - intros Hlt. destruct (isValid i) eqn:Hv; simpl; [|done].
    destruct (r =? DisplayRole); simpl; [|done].
    unfold isValid in Hv. apply andb_prop in Hv as [Hv _].
    apply andb_prop in Hv as [Hr _]. apply Z.leb_le in Hr.
    rewrite lookup_app_l; [done|]. unfold size in Hlt. lia.
  - intros s -> -> Hrow Hs. simpl.
    rewrite lookup_app_r; unfold size in Hrow; [|lia].
    replace (Z.to_nat (row i) - length (rows m))%nat with 0%nat by lia.
    simpl. by rewrite Hs.
Qed.

Lemma data_after_insertRowData_witness :
  data (insertRowData ["1"; "Item"; "later"]%string
          (mk [["0"; "Item"; "noon"]%string] [] []))
       (mkIndex 0 2 true) DisplayRole =
    data (mk [["0"; "Item"; "noon"]%string] [] [])
       (mkIndex 0 2 true) DisplayRole /\
  data (insertRowData ["1"; "Item"; "later"]%string
          (mk [["0"; "Item"; "noon"]%string] [] []))
       (mkIndex 1 2 true) DisplayRole = Ok (VString "later").
Proof.
  destruct (data_after_insertRowData
              (mk [["0"; "Item"; "noon"]%string] [] [])
              ["1"; "Item"; "later"]%string (mkIndex 0 2 true) DisplayRole)
    as [Hold _].
  destruct (data_after_insertRowData
              (mk [["0"; "Item"; "noon"]%string] [] [])
              ["1"; "Item"; "later"]%string (mkIndex 1 2 true) DisplayRole)
    as [_ Hnew].
  split.
  - apply Hold. vm_compute. reflexivity.
  - apply Hnew; reflexivity.
Defined.

(** X3. Reading back after a [removeLastRow] that removed a row: every
    cell of the rows that stay reads as before, and every cell of the
    removed row now reads as the invalid variant. *)
Theorem data_after_removeLastRow (m : t) (rs : list (list string))
    (x : list string) (i : QModelIndex) (r : Z) :
  rows m = rs ++ [x] ->
  (row i < size rs -> data (removeLastRow m).2 i r = data m i r) /\
  (size rs <= row i -> data (removeLastRow m).2 i r = Ok Invalid).
Proof.
  intros Hm. rewrite (removeLastRow_snoc m rs x Hm), !data_lookup.
  cbn [snd rows]. rewrite Hm.
  destruct (isValid i) eqn:Hv; simpl; [|by split].
  destruct (r =? DisplayRole); simpl; [|by split].
  unfold isValid in Hv. apply andb_prop in Hv as [Hv _].
  apply andb_prop in Hv as [Hr _]. apply Z.leb_le in Hr.
  unfold size. split; intros Hi.
  - rewrite lookup_app_l; [done|lia].
  - rewrite lookup_ge_None_2; [done|lia].
Qed.

Lemma data_after_removeLastRow_witness :
  data (removeLastRow
          (mk [["0"; "Item"; "noon"]; ["1"; "Item"; "later"]]%string [] [])).2
       (mkIndex 1 0 true) DisplayRole = Ok Invalid.
Proof.
  destruct (data_after_removeLastRow
              (mk [["0"; "Item"; "noon"]; ["1"; "Item"; "later"]]%string [] [])
              [["0"; "Item"; "noon"]%string] ["1"; "Item"; "later"]%string
              (mkIndex 1 0 true) DisplayRole eq_refl) as [_ Hgone].
  apply Hgone. vm_compute. discriminate.
Defined.

End RowStoreCells.

(** ** More on the row store: how the two mutations compose *)

Section RowStoreOps.
Import DataModel.

Lemma snoc_cases {A} (l : list A) : l = [] \/ exists rs x, l = rs ++ [x].
Proof. destruct l as [|y l] using rev_ind; [by left|right; eauto]. Qed.

Lemma size_app_one {A} (l : list A) (x : A) : size (l ++ [x]) = size l + 1.
Proof. unfold size. rewrite length_app. simpl. lia. Qed.

Lemma size_nonneg {A} (l : list A) : 0 <= size l.
Proof. unfold size. lia. Qed.

(** X4. [removeLastRow] right after [insertRowData] answers [true] and
    gives back the rows and the pending changes the model had; the log has
    gained the two insertion signals and then the two removal signals,
    all four for the same position. *)
Theorem removeLastRow_after_insertRowData (m : t) (rec : list string) :
  removeLastRow (insertRowData rec m) =
  (true,
   {| rows := rows m;
      changes := changes m;
      emitted := emitted m ++
        [rowsAboutToBeInserted (to_int (size (rows m))) (to_int (size (rows m)));
         rowsInserted (to_int (size (rows m))) (to_int (size (rows m)));
         rowsAboutToBeRemoved (to_int (size (rows m))) (to_int (size (rows m)));
         rowsRemoved (to_int (size (rows m))) (to_int (size (rows m)))] |}).
Proof.
  rewrite (removeLastRow_snoc (insertRowData rec m) (rows m) rec).
  - rewrite insertRowData_eq. cbn [rows changes emitted].
    by rewrite <- app_assoc.
  - by rewrite insertRowData_eq.
Qed.

(** X5. While the number of rows fits an [int], [rowCount] is the number
    of rows and is not negative; [insertRowData] below [INT_MAX] rows
    raises it by one, and [removeLastRow] lowers it by one, or leaves it
    at 0 on an empty model. *)
Theorem rowCount_counts_rows (m : t) (rec : list string) :
  size (rows m) <= INT_MAX ->
  rowCount m = size (rows m) /\
  0 <= rowCount m /\
  (size (rows m) < INT_MAX -> rowCount (insertRowData rec m) = rowCount m + 1) /\
  rowCount (removeLastRow m).2 = Z.max 0 (rowCount m - 1).
Proof.
  intros Hle. pose proof (size_nonneg (rows m)) as H0.
  assert (rowCount m = size (rows m)) as Hrc.
  { unfold rowCount. apply to_int_small. unfold INT_MIN, INT_MAX in *. lia. }
  rewrite Hrc. repeat split; [done| |].
  - intros Hlt. unfold rowCount. rewrite insertRowData_eq. cbn [rows].
    rewrite size_app_one. apply to_int_small. unfold INT_MIN, INT_MAX in *. lia.
  - unfold rowCount.
    destruct (snoc_cases (rows m)) as [Hnil|(rs & x & Hsnoc)].
    + rewrite removeLastRow_empty by done. cbn [snd]. rewrite Hnil. done.
    + rewrite (removeLastRow_snoc m rs x Hsnoc). cbn [snd rows].
      rewrite Hsnoc, size_app_one in *.
      pose proof (size_nonneg rs).
      rewrite to_int_small; unfold INT_MIN, INT_MAX in *; lia.
Qed.

Lemma rowCount_counts_rows_witness :
  rowCount (mk [["0"; "Item"; "noon"]%string] [] []) = 1 /\
  rowCount (insertRowData ["1"; "Item"; "later"]%string
              (mk [["0"; "Item"; "noon"]%string] [] [])) =
    rowCount (mk [["0"; "Item"; "noon"]%string] [] []) + 1.
Proof.
  destruct (rowCount_counts_rows (mk [["0"; "Item"; "noon"]%string] [] [])
              ["1"; "Item"; "later"]%string) as (Hc & _ & Hins & _).
  { vm_compute. discriminate. }
  split; [exact Hc|]. apply Hins. vm_compute. reflexivity.
Defined.

(** *** The signals seen by an observer *)

Lemma view_of_app (l1 l2 : list Signal) :
  view_of (l1 ++ l2) = foldl view_step (view_of l1) l2.
Proof. unfold view_of. apply foldl_app. Qed.

Lemma view_apply_op (m : t) (o : op) :
  changes m = [] ->
  view_of (emitted m) = Idle (size (rows m)) ->
  size (rows m) < INT_MAX ->
  changes (apply_op m o) = [] /\
  view_of (emitted (apply_op m o)) = Idle (size (rows (apply_op m o))) /\
  size (rows (apply_op m o)) <= size (rows m) + 1.
Proof.
  intros Hch Hv Hlt. pose proof (size_nonneg (rows m)) as H0.
  destruct o as [rec|]; cbn [apply_op].
  - rewrite insertRowData_eq. cbn [rows changes emitted].
    rewrite view_of_app, Hv, size_app_one.
    rewrite to_int_small by (unfold INT_MIN, INT_MAX in *; lia).
    do 2 (cbn [foldl view_step andb]; rewrite ?Z.eqb_refl).
    cbn [andb]. repeat split; [done|lia].
  - destruct (snoc_cases (rows m)) as [Hnil|(rs & x & Hsnoc)].
    + rewrite removeLastRow_empty by done. cbn [snd]. repeat split; [done|done|lia].
    + rewrite (removeLastRow_snoc m rs x Hsnoc). cbn [snd rows changes emitted].
      rewrite view_of_app, Hv. rewrite Hsnoc, size_app_one in *.
      pose proof (size_nonneg rs).
      rewrite to_int_small by (unfold INT_MIN, INT_MAX in *; lia).
      assert ((0 <? size rs + 1) = true) as Hpos by (apply Z.ltb_lt; lia).
      do 2 (cbn [foldl view_step andb];
            rewrite ?Hpos, ?Z.add_simpl_r, ?Z.eqb_refl).
      cbn [andb]. repeat split; [done|lia].
Qed.

Lemma view_apply_ops (ops : list op) (m : t) :
  changes m = [] ->
  view_of (emitted m) = Idle (size (rows m)) ->
  size (rows m) + Z.of_nat (length ops) <= INT_MAX ->
  changes (apply_ops ops m) = [] /\
  view_of (emitted (apply_ops ops m)) = Idle (size (rows (apply_ops ops m))).
Proof.
  revert m. induction ops as [|o ops IH]; intros m Hch Hv Hle; [done|].
  cbn [apply_ops foldl]. rewrite length_cons in Hle.
  destruct (view_apply_op m o Hch Hv) as (Hch' & Hv' & Hsz); [lia|].
  apply IH; [done|done|lia].
Qed.

(** X6. Over any sequence of [insertRowData] and [removeLastRow] calls on
    an empty model, short enough for the row count to fit an [int], no
    begun change is left pending, and an observer that follows the
    emitted signals is never broken and ends up knowing the exact number
    of rows: every change is announced and then completed, at the end of
    the rows, and a removal is never announced on an empty model. *)
Theorem signals_follow_rows (ops : list op) :
  Z.of_nat (length ops) <= INT_MAX ->
  changes (apply_ops ops empty) = [] /\
  view_of (emitted (apply_ops ops empty)) =
    Idle (size (rows (apply_ops ops empty))).
Proof.
  intros Hle. apply view_apply_ops; [done|done|].
  cbn [empty rows]. unfold size. simpl. lia.
Qed.

Lemma signals_follow_rows_witness :
  view_of (emitted (apply_ops
                      [RemoveLast; Insert ["0"; "Item"; "noon"]%string;
                       Insert ["1"; "Item"; "later"]%string; RemoveLast]
                      empty)) =
  Idle (size (rows (apply_ops
                      [RemoveLast; Insert ["0"; "Item"; "noon"]%string;
                       Insert ["1"; "Item"; "later"]%string; RemoveLast]
                      empty))).
Proof.
  apply (signals_follow_rows
           [RemoveLast; Insert ["0"; "Item"; "noon"]%string;
            Insert ["1"; "Item"; "later"]%string; RemoveLast]).
  vm_compute. discriminate.
Defined.

End RowStoreOps.

(** ** More on the undo command *)

Section CommandInverse.
Import DataModel.

(** X7. [AddRowCommand::undo] removes the last row of the model whatever
    record that row holds: on rows [rs ++ [x]] it leaves [rs], and a
    [redo] of the same command after it leaves [rs ++ [row]]. So [redo]
    after [undo] gives back the rows the model had exactly when the last
    row was the command's own record. *)
Theorem undo_removes_any_last_row (c : AddRowCommand.t) (m : t)
    (rs : list (list string)) (x : list string) :
  rows m = rs ++ [x] ->
  rows (AddRowCommand.undo c m) = rs /\
  rows (AddRowCommand.redo c (AddRowCommand.undo c m)) =
    rs ++ [AddRowCommand.row c] /\
  (rows (AddRowCommand.redo c (AddRowCommand.undo c m)) = rows m <->
   x = AddRowCommand.row c).
Proof.
  intros Hm. pose proof (AddRowCommand_undo_snoc c m rs x Hm) as Hu.
  rewrite AddRowCommand_redo_rows, Hu, Hm. repeat split; [|by intros ->].
  intros Heq. apply app_inv_head in Heq. by injection Heq.
Qed.

Lemma undo_removes_any_last_row_witness :
  rows (AddRowCommand.undo (AddRowCommand.mk ["7"; "Item"; "later"]%string)
          (mk [["0"; "Item"; "noon"]%string] [] [])) = [] /\
  rows (AddRowCommand.redo (AddRowCommand.mk ["7"; "Item"; "later"]%string)
          (AddRowCommand.undo (AddRowCommand.mk ["7"; "Item"; "later"]%string)
             (mk [["0"; "Item"; "noon"]%string] [] []))) =
    [["7"; "Item"; "later"]%string].
Proof.
  destruct (undo_removes_any_last_row
              (AddRowCommand.mk ["7"; "Item"; "later"]%string)
              (mk [["0"; "Item"; "noon"]%string] [] [])
              [] ["0"; "Item"; "noon"]%string eq_refl) as (Hu & Hr & _).
  split; [exact Hu|exact Hr].
Defined.

End CommandInverse.

(** ** More on the window: the table and the history together *)

Section WindowHistory.
Import DataModel QUndoStack MainWindow.

Lemma reachable_consistent (acts : list action) :
  consistent (handle_all acts init).
Proof. apply consistent_handle_all, consistent_init. Qed.

(** X8. After every sequence of "Add Row", Undo and Redo the number of
    rows of the table is the cursor of the history, the cursor is within
    the history, and the table is empty exactly when there is nothing to
    undo. *)
Theorem rows_eq_cursor (acts : list action) :
  size (rows (model (handle_all acts init))) =
    Z.of_nat (index (undo (handle_all acts init))) /\
  (index (undo (handle_all acts init)) <=
     length (command_list (undo (handle_all acts init))))%nat /\
  (rows (model (handle_all acts init)) = [] <->
   index (undo (handle_all acts init)) = 0%nat).
Proof.
  destruct (reachable_consistent acts) as [Ht _].
  pose proof (tracks_size _ Ht) as Hsz. destruct Ht as [Hu _].
  split; [done|]. split; [exact Hu|].
  unfold size in Hsz. split.
  - intros Hnil. rewrite Hnil in Hsz. simpl in Hsz. lia.
  - intros Hz. rewrite Hz in Hsz. apply length_zero_iff_nil. lia.
Qed.

Lemma three_fields_handle (w : MainWindow.t) (a : action) :
  three_fields (undo w) -> three_fields (undo (handle w a)).
Proof.
  unfold three_fields. intros Hw. destruct a as [now| |]; cbn [handle].
  - rewrite add_clicked_eq. cbn [undo command_list].
    apply Forall_app. split; [by apply Forall_take|].
    by apply Forall_singleton.
  - unfold undo_triggered, of_pair. cbn [undo].
    by rewrite undo_command_list.
  - unfold redo_triggered, of_pair. cbn [undo].
    by rewrite redo_command_list.
Qed.

Lemma three_fields_handle_all (acts : list action) (w : MainWindow.t) :
  three_fields (undo w) -> three_fields (undo (handle_all acts w)).
Proof.
  revert w. induction acts as [|a acts IH]; intros w Hw; [done|].
  simpl. apply IH. by apply three_fields_handle.
Qed.

Lemma reachable_rows_three (acts : list action) :
  Forall (fun r => length r = 3%nat) (rows (model (handle_all acts init))).
Proof.
  destruct (reachable_consistent acts) as [[_ Hr] _]. cbn [fst snd] in Hr.
  rewrite Hr. simpl. apply Forall_fmap. apply Forall_take.
  apply (three_fields_handle_all acts init). by apply Forall_nil.
Qed.

(** X9. After every sequence of "Add Row", Undo and Redo every record of
    the table has exactly [columnCount] fields, so every cell of the grid
    [rowCount] x [columnCount] that a view asks for through a valid index
    reads, with the display role, as a stored text and never as the
    invalid variant. *)
Theorem grid_cells_readable (acts : list action) (i : QModelIndex) :
  Forall (fun r => size r = columnCount (model (handle_all acts init)))
    (rows (model (handle_all acts init))) /\
  (isValid i = true ->
   row i < size (rows (model (handle_all acts init))) ->
   column i < columnCount (model (handle_all acts init)) ->
   exists s, data (model (handle_all acts init)) i DisplayRole =
               Ok (VString s)).
Proof.
  pose proof (reachable_rows_three acts) as H3. split.
  - eapply Forall_impl; [exact H3|]. intros r Hr. unfold size, columnCount.
    simpl in Hr. lia.
  - intros Hv Hrow Hcol. rewrite data_lookup, Hv. simpl.
    unfold isValid in Hv. apply andb_prop in Hv as [Hv _].
    apply andb_prop in Hv as [Hr Hc].
    apply Z.leb_le in Hr. apply Z.leb_le in Hc.
    destruct (lookup_lt_is_Some_2 (rows (model (handle_all acts init)))
                (Z.to_nat (row i))) as [rec Hrec].
    { unfold size in Hrow. lia. }
    rewrite Hrec.
    assert (length rec = 3%nat) as Hlen.
    { rewrite Forall_forall in H3. apply H3.
      by apply list_elem_of_lookup_2 in Hrec. }
    destruct (lookup_lt_is_Some_2 rec (Z.to_nat (column i))) as [s Hs].
    { unfold columnCount in Hcol. lia. }
    rewrite Hs. eauto.
Qed.

Lemma grid_cells_readable_witness :
  exists s,
    data (model (handle_all [AddRow "a"; AddRow "b"; EditUndo]%string init))
      (mkIndex 0 2 true) DisplayRole = Ok (VString s).
Proof.
  apply (grid_cells_readable [AddRow "a"; AddRow "b"; EditUndo]%string
           (mkIndex 0 2 true)).
  - reflexivity.
  - vm_compute. reflexivity.
  - vm_compute. reflexivity.
Defined.

Lemma stack_eta {C} (u : QUndoStack.t C) :
  QUndoStack.mk (command_list u) (index u) = u.
Proof. by destruct u. Qed.

Lemma tracks_redo_undo (base : list (list string)) (m : DataModel.t)
    (u : QUndoStack.t AddRowCommand.t) :
  tracks base (m, u) -> (0 < index u)%nat ->
  rows (QUndoStack.redo (QUndoStack.undo (m, u))).1 = rows m /\
  (QUndoStack.redo (QUndoStack.undo (m, u))).2 = u.
Proof.
  intros [Hu Hr] Hpos. cbn [fst snd] in *.
  destruct (index u) as [|i] eqn:Hi; [lia|].
  destruct (lookup_lt_is_Some_2 (command_list u) i) as [cmd Hc].
  { unfold wf in Hu. lia. }
  rewrite (undo_eq m u i cmd Hi Hc).
  rewrite (redo_eq _ (QUndoStack.mk (command_list u) i) cmd) by done.
  cbn [fst snd command_list index]. split.
  - unfold done_ops in Hr. rewrite Hi in Hr.
    rewrite (done_ops_snoc u i cmd Hc), fmap_app, app_assoc in Hr.
    rewrite command_redo_rows, (command_undo_snoc cmd m _ _ Hr). done.
  - rewrite Nat.add_1_r, <- Hi. apply stack_eta.
Qed.

Lemma tracks_undo_redo (base : list (list string)) (m : DataModel.t)
    (u : QUndoStack.t AddRowCommand.t) :
  tracks base (m, u) -> (index u < length (command_list u))%nat ->
  rows (QUndoStack.undo (QUndoStack.redo (m, u))).1 = rows m /\
  (QUndoStack.undo (QUndoStack.redo (m, u))).2 = u.
Proof.
  intros [Hu Hr] Hlt. cbn [fst snd] in *.
  destruct (lookup_lt_is_Some_2 (command_list u) (index u)) as [cmd Hc];
    [done|].
  rewrite (redo_eq m u cmd Hc).
  rewrite (undo_eq _ (QUndoStack.mk (command_list u) (index u + 1))
             (index u) cmd); cbn [command_list index]; [|lia|done].
  cbn [fst snd]. split; [|apply stack_eta].
  apply (command_undo_snoc cmd _ (rows m) (AddRowCommand.row cmd)).
  apply command_redo_rows.
Qed.

(** X10. After every sequence of "Add Row", Undo and Redo: when there is
    something to undo, Undo followed by Redo gives back the same rows and
    the same history and cursor; when there is something to redo, Redo
    followed by Undo does. *)
Theorem undo_redo_round_trip (acts : list action) :
  ((0 < index (undo (handle_all acts init)))%nat ->
   rows (model (redo_triggered (undo_triggered (handle_all acts init)))) =
     rows (model (handle_all acts init)) /\
   undo (redo_triggered (undo_triggered (handle_all acts init))) =
     undo (handle_all acts init)) /\
  ((index (undo (handle_all acts init)) <
      length (command_list (undo (handle_all acts init))))%nat ->
   rows (model (undo_triggered (redo_triggered (handle_all acts init)))) =
     rows (model (handle_all acts init)) /\
   undo (undo_triggered (redo_triggered (handle_all acts init))) =
     undo (handle_all acts init)).
Proof.
  destruct (reachable_consistent acts) as [Ht _].
  set (w := handle_all acts init) in *.
  unfold redo_triggered, undo_triggered, of_pair. cbn [model undo].
  rewrite <- !surjective_pairing. split; intros Hi.
  - by apply (tracks_redo_undo []).
  - by apply (tracks_undo_redo []).
Qed.

Lemma undo_redo_round_trip_witness :
  rows (model (redo_triggered (undo_triggered
     (handle_all [AddRow "a"; AddRow "b"]%string init)))) =
  rows (model (handle_all [AddRow "a"; AddRow "b"]%string init)) /\
  rows (model (undo_triggered (redo_triggered
     (handle_all [AddRow "a"; AddRow "b"; EditUndo]%string init)))) =
  rows (model (handle_all [AddRow "a"; AddRow "b"; EditUndo]%string init)).
Proof.
  destruct (undo_redo_round_trip [AddRow "a"; AddRow "b"]%string)
    as [Hur _].
  destruct (undo_redo_round_trip [AddRow "a"; AddRow "b"; EditUndo]%string)
    as [_ Hru].
  split.
  - apply Hur. vm_compute. lia.
  - apply Hru. vm_compute. lia.
Defined.

(** *** Undoing and redoing everything *)

Lemma undo_index (m : DataModel.t) (u : QUndoStack.t AddRowCommand.t) :
  wf u -> index (QUndoStack.undo (m, u)).2 = (index u - 1)%nat.
Proof.
  intros Hu. unfold QUndoStack.undo. cbn [fst snd].
  destruct (Nat.eqb_spec (index u) 0) as [Hz|Hnz]; [cbn [snd]; lia|].
  destruct (command_list u !! (index u - 1)%nat) eqn:Hc; [done|].
  apply lookup_ge_None in Hc. unfold wf in Hu. lia.
Qed.

Lemma redo_index (m : DataModel.t) (u : QUndoStack.t AddRowCommand.t) :
  wf u ->
  index (QUndoStack.redo (m, u)).2 =
    Nat.min (index u + 1) (length (command_list u)).
Proof.
  intros Hu. unfold QUndoStack.redo. cbn [fst snd]. unfold wf in Hu.
  destruct (Nat.eqb_spec (index u) (length (command_list u))) as [He|Hne];
    [cbn [snd]; lia|].
  destruct (command_list u !! index u) eqn:Hc.
  - apply lookup_lt_Some in Hc. cbn [snd index]. lia.
  - apply lookup_ge_None in Hc. lia.
Qed.

Lemma undo_many (n : nat) (w : MainWindow.t) :
  consistent w ->
  consistent (handle_all (repeat EditUndo n) w) /\
  command_list (undo (handle_all (repeat EditUndo n) w)) =
    command_list (undo w) /\
  index (undo (handle_all (repeat EditUndo n) w)) = (index (undo w) - n)%nat.
Proof.
  revert w. induction n as [|n IH]; intros w Hw.
  - simpl. split; [done|split; [done|lia]].
  - change (handle_all (repeat EditUndo (Datatypes.S n)) w)
      with (handle_all (repeat EditUndo n) (undo_triggered w)).
    pose proof (consistent_handle w EditUndo Hw) as Hw'. cbn [handle] in Hw'.
    destruct (IH _ Hw') as (Hc & Hl & Hi). split; [done|].
    rewrite Hl, Hi. unfold undo_triggered, of_pair. cbn [undo].
    rewrite undo_command_list, undo_index; [split; [done|lia]|].
    by destruct Hw as [[Hu _] _].
Qed.

Lemma redo_many (n : nat) (w : MainWindow.t) :
  consistent w ->
  consistent (handle_all (repeat EditRedo n) w) /\
  command_list (undo (handle_all (repeat EditRedo n) w)) =
    command_list (undo w) /\
  index (undo (handle_all (repeat EditRedo n) w)) =
    Nat.min (index (undo w) + n) (length (command_list (undo w))).
Proof.
  revert w. induction n as [|n IH]; intros w Hw.
  - simpl. split; [done|split; [done|]].
    destruct Hw as [[Hu _] _]. unfold wf in Hu. cbn [snd] in Hu. lia.
  - change (handle_all (repeat EditRedo (Datatypes.S n)) w)
      with (handle_all (repeat EditRedo n) (redo_triggered w)).
    pose proof (consistent_handle w EditRedo Hw) as Hw'. cbn [handle] in Hw'.
    destruct (IH _ Hw') as (Hc & Hl & Hi). split; [done|].
    rewrite Hl, Hi. unfold redo_triggered, of_pair. cbn [undo].
    rewrite redo_command_list, redo_index; [split; [done|lia]|].
    by destruct Hw as [[Hu _] _].
Qed.

(** X11. After every sequence of "Add Row", Undo and Redo: as many Undos
    as the cursor counts, or more, empty the table and keep the whole
    history; as many Redos after that as the history is long, or more,
    bring back the record of every operation of the history, in order. *)
Theorem undo_all_then_redo_all (acts : list action) (n k : nat) :
  (index (undo (handle_all acts init)) <= n)%nat ->
  (length (command_list (undo (handle_all acts init))) <= k)%nat ->
  rows (model (handle_all (repeat EditUndo n) (handle_all acts init))) = [] /\
  command_list (undo (handle_all (repeat EditUndo n) (handle_all acts init))) =
    command_list (undo (handle_all acts init)) /\
  rows (model (handle_all (repeat EditRedo k)
                 (handle_all (repeat EditUndo n) (handle_all acts init)))) =
    AddRowCommand.row <$> command_list (undo (handle_all acts init)).
Proof.
  intros Hn Hk. set (w := handle_all acts init) in *.
  destruct (undo_many n w (reachable_consistent acts)) as (Hc1 & Hl1 & Hi1).
  set (w1 := handle_all (repeat EditUndo n) w) in *.
  destruct (redo_many k w1 Hc1) as (Hc2 & Hl2 & Hi2).
  set (w2 := handle_all (repeat EditRedo k) w1) in *.
  split; [|split; [done|]].
  - destruct Hc1 as [[_ Hr] _]. cbn [fst snd] in Hr. rewrite Hr.
    unfold done_ops. replace (index (undo w1)) with 0%nat by lia. done.
  - destruct Hc2 as [[_ Hr] _]. cbn [fst snd] in Hr. rewrite Hr.
    unfold done_ops. rewrite Hl2, Hl1, take_ge; [done|]. rewrite Hi2, Hl1. lia.
Qed.

Lemma undo_all_then_redo_all_witness :
  rows (model (handle_all (repeat EditUndo 3)
                 (handle_all [AddRow "a"; AddRow "b"; EditUndo]%string init))) =
    [] /\
  rows (model (handle_all (repeat EditRedo 2)
                 (handle_all (repeat EditUndo 3)
                    (handle_all [AddRow "a"; AddRow "b"; EditUndo]%string
                       init)))) =
    [["0"; "Item"; "a"]; ["1"; "Item"; "b"]]%string.
Proof.
  destruct (undo_all_then_redo_all
              [AddRow "a"; AddRow "b"; EditUndo]%string 3 2)
    as (Hempty & _ & Hall).
  - vm_compute. lia.
  - vm_compute. lia.
  - split; [exact Hempty|exact Hall].
Defined.

End WindowHistory.

(** ** More on the worker: full runs, cancellation at the loop test *)

Section WorkerMore.
Import Worker.

Lemma stop_step (w : t) : stop (step w) = stop w.
Proof.
  unfold step. destruct (at_pc w); try done.
  by destruct ((i <=? 100) && negb (stop w)).
Qed.

Lemma stop_without_cancel (sch : list event) (w : t) :
  Cancel ∉ sch -> stop (run sch w) = stop w.
Proof.
  revert w. induction sch as [|e sch IH]; intros w Hno; [done|].
  apply not_elem_of_cons in Hno as [Hne Hno].
  destruct e; [|done]. cbn [run foldl do_event].
  fold (run sch (step w)). rewrite IH by done. apply stop_step.
Qed.

Lemma fuel_step_exact (w : t) :
  inv w -> stop w = false -> at_pc w <> Returned ->
  fuel (step w) = fuel w - 1.
Proof.
  intros (n & Hn & Hw) Hst Hnr. unfold step, fuel at 2.
  destruct (at_pc w) as [i|i|i| |] eqn:Hpc; try done.
  - destruct Hw as [-> _]. rewrite Hst.
    destruct (Z.leb_spec n 100); unfold fuel; simpl; lia.
  - unfold fuel. simpl. lia.
  - unfold fuel. simpl. lia.
Qed.

Lemma fuel_run_exact (sch : list event) (w : t) :
  inv w -> stop w = false -> Cancel ∉ sch ->
  fuel (run sch w) = Z.max 0 (fuel w - Z.of_nat (ticks sch)).
Proof.
  revert w. induction sch as [|e sch IH]; intros w Hw Hst Hno.
  - simpl. unfold ticks. simpl. pose proof (fuel_bounds w Hw). lia.
  - apply not_elem_of_cons in Hno as [Hne Hno].
    destruct e; [|done]. cbn [run foldl do_event]. fold (run sch (step w)).
    rewrite ticks_cons_Tick.
    rewrite IH; [|by apply inv_step|by rewrite stop_step|done].
    assert (at_pc w = Returned \/ at_pc w <> Returned) as [Hr|Hnr].
    { destruct (at_pc w); [right|right|right|right|left]; done. }
    + assert (step w = w) as -> by (unfold step; by rewrite Hr).
      unfold fuel. rewrite Hr. lia.
    + rewrite (fuel_step_exact w Hw Hst Hnr).
      pose proof (fuel_bounds w Hw). lia.
Qed.

Lemma uncancelled_run_sent (sch : list event) :
  Cancel ∉ sch -> (305 <= ticks sch)%nat ->
  sent (run sch init) = (progress <$> seqZ 0 101) ++ [finished].
Proof.
  intros Hno Hticks.
  pose proof (inv_run sch init inv_init) as Hinv.
  pose proof (fuel_run_exact sch init inv_init eq_refl Hno) as Hf.
  change (fuel init) with 305 in Hf.
  pose proof (stop_without_cancel sch init Hno) as Hst.
  change (stop init) with false in Hst.
  assert (at_pc (run sch init) = Returned) as Hret.
  { apply fuel_bounds; [done|lia]. }
  destruct Hinv as (n & Hn & Hw). rewrite Hret in Hw.
  destruct Hw as [Hs [->|Hstop]]; [done|congruence].
Qed.

(** X12. A run during which [cancel] is never called, as every run of
    this program is, returns after exactly 305 of its actions: with fewer
    it has not sent [finished] yet; with 305 or more it has sent
    [progress 0], ..., [progress 100], in this order, and then [finished],
    and nothing else. *)
Theorem uncancelled_run_complete (sch : list event) :
  Cancel ∉ sch ->
  ((ticks sch < 305)%nat -> finished_count (sent (run sch init)) = 0%nat) /\
  ((305 <= ticks sch)%nat ->
   sent (run sch init) = (progress <$> seqZ 0 101) ++ [finished]).
Proof.
  intros Hno. split; [|by apply uncancelled_run_sent].
  intros Hticks.
  pose proof (inv_run sch init inv_init) as Hinv.
  pose proof (fuel_run_exact sch init inv_init eq_refl Hno) as Hf.
  change (fuel init) with 305 in Hf.
  destruct (inv_sent_shape _ Hinv) as [(_ & H0 & _)|(_ & _ & Hret)]; [done|].
  unfold fuel in Hf. rewrite Hret in Hf. lia.
Qed.

Lemma uncancelled_run_complete_witness :
  finished_count (sent (run (repeat Tick 304) init)) = 0%nat /\
  sent (run (repeat Tick 305) init) = (progress <$> seqZ 0 101) ++ [finished].
Proof.
  split.
  - apply (uncancelled_run_complete (repeat Tick 304)).
    + intros Hin. apply list_elem_of_In, repeat_spec in Hin. discriminate.
    + vm_compute. apply le_n.
  - apply (uncancelled_run_complete (repeat Tick 305)).
    + intros Hin. apply list_elem_of_In, repeat_spec in Hin. discriminate.
    + vm_compute. apply le_n.
Defined.

(** X13. A call of [cancel] that arrives while the run stands at the loop
    test (before its first action too) stops the emission at once: under
    every continuation no progress signal is sent after the call. *)
Theorem cancel_at_loop_test (sch1 sch2 : list event) (i : Z) :
  at_pc (run sch1 init) = AtTest i ->
  progress_values (sent (run sch2 (cancel (run sch1 init)))) =
    progress_values (sent (run sch1 init)).
Proof.
  intros Hpc.
  destruct (pending_run sch2 (cancel (run sch1 init)) eq_refl)
    as (extra & He & Hp).
  change (sent (cancel (run sch1 init))) with (sent (run sch1 init)) in He.
  change (pending (cancel (run sch1 init))) with (pending (run sch1 init)) in Hp.
  unfold pending at 2 in Hp. rewrite Hpc in Hp.
  apply (f_equal progress_values) in Hp.
  rewrite progress_values_app in Hp. simpl in Hp.
  apply app_eq_nil in Hp as [Hex _].
  by rewrite He, progress_values_app, Hex, app_nil_r.
Qed.

Lemma cancel_at_loop_test_witness :
  progress_values (sent (run [Tick; Tick; Tick] (cancel (run [] init)))) =
  progress_values (sent (run [] init)).
Proof.
  apply (cancel_at_loop_test [] [Tick; Tick; Tick] 0). reflexivity.
Defined.

Lemma fuel_stopped_step (w : t) :
  stop w = true -> fuel_stopped (step w) <= Z.max 0 (fuel_stopped w - 1).
Proof.
  intros Hst. unfold step, fuel_stopped at 2.
  destruct (at_pc w) as [i|i|i| |] eqn:Hpc.
  - rewrite Hst, andb_false_r. unfold fuel_stopped. simpl. lia.
  - unfold fuel_stopped. simpl. lia.
  - unfold fuel_stopped. simpl. lia.
  - unfold fuel_stopped. simpl. lia.
  - unfold fuel_stopped. rewrite Hpc. lia.
Qed.

Lemma fuel_stopped_run (sch : list event) (w : t) :
  stop w = true ->
  fuel_stopped (run sch w) <= Z.max 0 (fuel_stopped w - Z.of_nat (ticks sch)).
Proof.
  revert w. induction sch as [|e sch IH]; intros w Hst.
  - simpl. unfold ticks, fuel_stopped. simpl. destruct (at_pc w); lia.
  - destruct e; cbn [run foldl do_event].
    + fold (run sch (step w)). rewrite ticks_cons_Tick.
      pose proof (IH (step w)) as IH'. rewrite stop_step in IH'.
      specialize (IH' Hst). pose proof (fuel_stopped_step w Hst). lia.
    + fold (run sch (cancel w)). rewrite ticks_cons_Cancel.
      exact (IH (cancel w) eq_refl).
Qed.

(** X14. Wherever a run stands when [cancel] is called, it has returned
    once it has made four more actions: at most the rest of the round in
    flight (end of the sleep, its progress signal), the loop test that
    sees the flag, and [finished]. *)
Theorem cancelled_run_returns (w : t) (sch : list event) :
  (4 <= ticks sch)%nat -> at_pc (run sch (cancel w)) = Returned.
Proof.
  intros Hticks.
  pose proof (fuel_stopped_run sch (cancel w) eq_refl) as Hf.
  assert (fuel_stopped (cancel w) <= 4) as H4.
  { unfold fuel_stopped. destruct (at_pc (cancel w)); lia. }
  unfold fuel_stopped at 1 in Hf.
  destruct (at_pc (run sch (cancel w))); try done; lia.
Qed.

Lemma cancelled_run_returns_witness :
  at_pc (run [Tick; Tick; Tick; Tick]
           (cancel (run [Tick; Tick; Tick; Tick] init))) = Returned.
Proof.
  apply (cancelled_run_returns (run [Tick; Tick; Tick; Tick] init)
           [Tick; Tick; Tick; Tick]).
  vm_compute. apply le_n.
Defined.

End WorkerMore.

(** ** The worker: what is emitted, and when the loop is left *)

Section WorkerProgress.
Import Worker.

(** The invariant, read as a count of the values sent. *)
Lemma inv_count (w : t) :
  inv w ->
  0 <= size (progress_values (sent w)) <= 101 /\
  match at_pc w with
  | AtTest i => i = size (progress_values (sent w))
  | AtSleep i | AtEmit i => i = size (progress_values (sent w)) /\ i <= 100
  | AtFinished | Returned =>
      size (progress_values (sent w)) = 101 \/ stop w = true
  end.
Proof.
  intros (n & Hn & Hw).
  assert (sent w = progress <$> seqZ 0 n \/
          sent w = (progress <$> seqZ 0 n) ++ [finished] ->
          size (progress_values (sent w)) = n) as Hsz.
  { intros [Hs|Hs]; rewrite Hs, ?progress_values_app, progress_values_fmap;
      simpl; rewrite ?app_nil_r; unfold size; rewrite length_seqZ; lia. }
  destruct (at_pc w);
    [destruct Hw as [-> Hs]|destruct Hw as (-> & Hle & Hs)
    |destruct Hw as (-> & Hle & Hs)|destruct Hw as [Hs Hor]
    |destruct Hw as [Hs Hor]];
    rewrite Hsz by auto; auto with lia.
Qed.

(** While [cancel] is not called, one value is sent every three actions,
    up to the value 100. *)
Lemma count_without_cancel (sch : list event) :
  Cancel ∉ sch ->
  size (progress_values (sent (run sch init))) =
    Z.min 101 (Z.of_nat (ticks sch) / 3).
Proof.
  intros Hno.
  pose proof (inv_run sch init inv_init) as Hinv.
  pose proof (fuel_run_exact sch init inv_init eq_refl Hno) as Hf.
  change (fuel init) with 305 in Hf.
  pose proof (stop_without_cancel sch init Hno) as Hst.
  change (stop init) with false in Hst.
  destruct (inv_count _ Hinv) as [Hn Hpc].
  unfold fuel in Hf.
  destruct (at_pc (run sch init)) as [i|i|i| |].
  - Z.to_euclidean_division_equations; lia.
  - destruct Hpc as [Hpc Hle]. Z.to_euclidean_division_equations; lia.
  - destruct Hpc as [Hpc Hle]. Z.to_euclidean_division_equations; lia.
  - destruct Hpc as [Hpc|Hpc]; [|congruence].
    Z.to_euclidean_division_equations; lia.
  - destruct Hpc as [Hpc|Hpc]; [|congruence].
    Z.to_euclidean_division_equations; lia.
Qed.

(** The loop is left only by the action that stands at the loop test. *)
Lemma loop_exit_at_test (w : t) (e : event) :
  inv w -> loop_left w = false -> loop_left (do_event w e) = true ->
  e = Tick /\
  at_pc w = AtTest (size (progress_values (sent w))) /\
  (size (progress_values (sent w)) = 101 \/ stop w = true).
Proof.
  intros Hinv Hin Hout. destruct (inv_count w Hinv) as [Hn Hpc].
  destruct e; [|unfold do_event, cancel, loop_left in *; simpl in *; congruence].
  split; [done|].
  unfold do_event, step, loop_left in *.
  destruct (at_pc w) as [i|i|i| |]; try done. subst i. split; [done|].
  destruct (Z.leb_spec (size (progress_values (sent w))) 100) as [Hle|Hgt];
    [|left; lia].
  destruct (stop w); [by right|done].
Qed.

Lemma sent_step_mono (w : t) (x : Signal) : x ∈ sent w -> x ∈ sent (step w).
Proof.
  intros Hx. unfold step. destruct (at_pc w); try done.
  - by destruct ((i <=? 100) && negb (stop w)).
  - simpl. apply elem_of_app. by left.
  - simpl. apply elem_of_app. by left.
Qed.

Lemma sent_run_mono (sch : list event) (w : t) (x : Signal) :
  x ∈ sent w -> x ∈ sent (run sch w).
Proof.
  revert w. induction sch as [|e sch IH]; intros w Hx; [done|].
  destruct e; cbn [run foldl do_event].
  - apply (IH (step w)). by apply sent_step_mono.
  - by apply (IH (cancel w)).
Qed.

Lemma emit_in_flight (sch : list event) (w : t) (i : Z) :
  at_pc w = AtEmit i -> (1 <= ticks sch)%nat ->
  progress i ∈ sent (run sch w).
Proof.
  revert w. induction sch as [|e sch IH]; intros w Hpc Hticks.
  - unfold ticks in Hticks. simpl in Hticks. lia.
  - destruct e; cbn [run foldl do_event].
    + apply (sent_run_mono sch (step w)). unfold step. rewrite Hpc. simpl.
      apply elem_of_app. right. by apply list_elem_of_singleton.
    + rewrite ticks_cons_Cancel in Hticks. by apply (IH (cancel w)).
Qed.

Lemma sleep_in_flight (sch : list event) (w : t) (i : Z) :
  at_pc w = AtSleep i -> (2 <= ticks sch)%nat ->
  progress i ∈ sent (run sch w).
Proof.
  revert w. induction sch as [|e sch IH]; intros w Hpc Hticks.
  - unfold ticks in Hticks. simpl in Hticks. lia.
  - destruct e; cbn [run foldl do_event].
    + rewrite ticks_cons_Tick in Hticks.
      apply (emit_in_flight sch (step w) i); [|lia].
      unfold step. by rewrite Hpc.
    + rewrite ticks_cons_Cancel in Hticks. by apply (IH (cancel w)).
Qed.

(** C4. At every point of every run, under every interleaving with
    calls of [cancel]:
    - the progress values sent so far are 0, 1, ..., k - 1 in this order
      (the first one 0, each one more than the one before), there are at
      most 101 of them and each lies in [[0, 100]];
    - once the loop has been left, all of 0, ..., 100 have been sent or
      the flag is set;
    - as long as [cancel] has not been called the emission goes on: after
      [t] actions of the run exactly [min 101 (t / 3)] values have been
      sent (one per round of test, sleep, emit, up to the value 100);
    - the loop is left only by an action of the run itself that stands
      at the loop test, with the counter at the number of values sent,
      and finds that number to be 101 or reads the flag set; a call of
      [cancel] leaves the run where it is, and so do the sleep and the
      emission;
    - a round that has passed the loop test sends its value whatever
      happens to the flag in between: from the sleep or the emission of
      round [i], two more actions of the run, interleaved with any calls
      of [cancel], have sent [progress i]. *)
Theorem progress_sequence (sch sch2 : list event) (e : event) (i : Z) :
  progress_values (sent (run sch init)) =
    seqZ 0 (size (progress_values (sent (run sch init)))) /\
  size (progress_values (sent (run sch init))) <= 101 /\
  Forall (fun v => 0 <= v <= 100) (progress_values (sent (run sch init))) /\
  (loop_left (run sch init) = true ->
   size (progress_values (sent (run sch init))) = 101 \/
   stop (run sch init) = true) /\
  (Cancel ∉ sch ->
   size (progress_values (sent (run sch init))) =
     Z.min 101 (Z.of_nat (ticks sch) / 3)) /\
  (loop_left (run sch init) = false ->
   loop_left (run (sch ++ [e]) init) = true ->
   e = Tick /\
   at_pc (run sch init) = AtTest (size (progress_values (sent (run sch init)))) /\
   (size (progress_values (sent (run sch init))) = 101 \/
    stop (run sch init) = true)) /\
  (at_pc (run sch init) = AtSleep i \/ at_pc (run sch init) = AtEmit i ->
   (2 <= ticks sch2)%nat ->
   i = size (progress_values (sent (run sch init))) /\
   progress i ∈ sent (run (sch ++ sch2) init)).
Proof.
  pose proof (inv_run sch init inv_init) as Hinv.
  destruct (inv_progress_values _ Hinv) as (Hv & Hle & Hleft).
  split; [done|]. split; [done|]. split.
  { rewrite Hv. apply Forall_seqZ. lia. }
  split; [done|]. split; [apply count_without_cancel|]. split.
  - intros Hin Hout. rewrite run_app in Hout. by apply loop_exit_at_test.
  - intros Hpc Hticks. destruct (inv_count _ Hinv) as [_ Hc]. rewrite run_app.
    destruct Hpc as [Hpc|Hpc]; rewrite Hpc in Hc; destruct Hc as [Hi _].
    + split; [done|]. by apply sleep_in_flight.
    + split; [done|]. apply emit_in_flight; [done|lia].
Qed.

Lemma progress_sequence_witness :
  (size (progress_values
           (sent (run [Tick; Tick; Tick; Cancel; Tick; Tick] init))) = 101 \/
   stop (run [Tick; Tick; Tick; Cancel; Tick; Tick] init) = true) /\
  size (progress_values (sent (run (repeat Tick 7) init))) =
    Z.min 101 (Z.of_nat (ticks (repeat Tick 7)) / 3) /\
  at_pc (run [Tick; Tick; Tick; Cancel] init) =
    AtTest (size (progress_values
                    (sent (run [Tick; Tick; Tick; Cancel] init)))) /\
  progress 1 ∈
    sent (run ([Tick; Tick; Tick; Tick] ++ [Cancel; Tick; Cancel; Tick]) init).
Proof.
  destruct (progress_sequence [Tick; Tick; Tick; Cancel; Tick; Tick] [] Tick 0)
    as (_ & _ & _ & Hleft & _).
  destruct (progress_sequence (repeat Tick 7) [] Tick 0)
    as (_ & _ & _ & _ & Hcount & _).
  destruct (progress_sequence [Tick; Tick; Tick; Cancel] [] Tick 0)
    as (_ & _ & _ & _ & _ & Hexit & _).
  destruct (progress_sequence [Tick; Tick; Tick; Tick]
              [Cancel; Tick; Cancel; Tick] Tick 1)
    as (_ & _ & _ & _ & _ & _ & Hflight).
  split; [apply Hleft; reflexivity|].
  split.
  { apply Hcount. intros Hin.
    apply list_elem_of_In, repeat_spec in Hin. discriminate. }
  split.
  { apply Hexit; reflexivity. }
  apply Hflight; [left; reflexivity|]. vm_compute. apply le_n.
Defined.

End WorkerProgress.

(** ** The status label *)

Section Status.
Import Worker StatusLabel.

Lemma text_after_last (log : list Signal) :
  text_after log =
  match last (progress_values log) with
  | Some v => on_progress v
  | None => initial
  end.
Proof.
  induction log as [|s log IH] using rev_ind; [done|].
  unfold text_after in *. rewrite foldl_snoc, progress_values_app.
  destruct s as [p|]; simpl.
  - by rewrite last_snoc.
  - by rewrite app_nil_r.
Qed.

(** X15. After the window has handled the first [k] signals of a run, for
    any [k], the label shows "Idle" if no progress signal was among them,
    and otherwise "Progress v%" for the last progress value [v] handled,
    which lies in [[0, 100]]. When all signals of a run that was never
    cancelled and has returned are handled, it shows "Progress 100%". *)
Theorem label_shows_last_progress (sch : list event) (k : nat) :
  ((progress_values (take k (sent (run sch init))) = [] /\
    text_after (take k (sent (run sch init))) = "Idle"%string) \/
   (exists v,
      last (progress_values (take k (sent (run sch init)))) = Some v /\
      0 <= v <= 100 /\
      text_after (take k (sent (run sch init))) =
        ("Progress " +:+ QString_number v +:+ "%")%string)) /\
  (Cancel ∉ sch -> (305 <= ticks sch)%nat ->
   text_after (sent (run sch init)) = "Progress 100%"%string).
Proof.
  split.
  - rewrite text_after_last.
    destruct (last (progress_values (take k (sent (run sch init)))))
      as [v|] eqn:Hlast.
    + right. exists v. split; [done|]. split; [|done].
      apply last_Some_elem_of in Hlast.
      apply list_elem_of_omap in Hlast as (sig & Hin & Hsig).
      apply (subseteq_take k) in Hin.
      destruct sig as [p|]; [|done]. injection Hsig as ->.
      destruct (inv_progress_values _ (inv_run sch init inv_init))
        as (Hv & Hle & _).
      assert (v ∈ progress_values (sent (run sch init))) as Hin'.
      { apply list_elem_of_omap. by exists (progress v). }
      rewrite Hv in Hin'. apply elem_of_seqZ in Hin'. lia.
    + left. split; [|done]. by apply last_None.
  - intros Hno Hticks.
    rewrite text_after_last, (uncancelled_run_sent sch Hno Hticks),
      progress_values_app,
      progress_values_fmap.
    cbn [progress_values omap list_omap]. rewrite ?app_nil_r.
    change 101 with (Z.of_nat 101). rewrite seqZ_S, last_snoc. done.
Qed.

Lemma label_shows_last_progress_witness :
  text_after (sent (run (repeat Tick 305) init)) = "Progress 100%"%string.
Proof.
  apply (label_shows_last_progress (repeat Tick 305) 0).
  - intros Hin. apply list_elem_of_In, repeat_spec in Hin. discriminate.
  - vm_compute. apply le_n.
Defined.

End Status.

(** ** The theme button *)

Section ThemeToggle.
Import Theme.

Lemma clicks_succ (n : nat) (s : t) :
  clicks (Datatypes.S n) s = clicked (clicks n s).
Proof. reflexivity. Qed.

Lemma clicks_after_first (sheet : string) (n : nat) :
  clicks (Datatypes.S n) (init sheet) =
  mk (Nat.odd (Datatypes.S n))
     (if Nat.odd (Datatypes.S n) then dark_sheet else EmptyString).
Proof.
  induction n as [|n IH]; [done|].
  rewrite clicks_succ, IH. unfold clicked. cbn [dark].
  by rewrite (Nat.odd_succ (Datatypes.S n)), <- Nat.negb_odd.
Qed.

(** X16. Whatever style sheet the application starts with, after [n]
    clicks on "Toggle Dark" the dark flag is set exactly when [n] is odd;
    from the first click on, the style sheet is the dark sheet when [n]
    is odd and empty when [n] is even, and two more clicks lead back to
    the same flag and style sheet. The style sheet the application
    started with is not brought back: two clicks lead back to the
    starting state exactly when that style sheet was empty. *)
Theorem theme_after_clicks (sheet : string) (n : nat) :
  dark (clicks n (init sheet)) = Nat.odd n /\
  styleSheet (clicks 0 (init sheet)) = sheet /\
  ((1 <= n)%nat ->
   styleSheet (clicks n (init sheet)) =
     (if Nat.odd n then dark_sheet else EmptyString) /\
   clicks (n + 2) (init sheet) = clicks n (init sheet)) /\
  (clicks 2 (init sheet) = init sheet <-> sheet = EmptyString).
Proof.
  split; [|split; [done|split]].
  - destruct n as [|n]; [done|]. by rewrite clicks_after_first.
  - intros Hn. destruct n as [|n]; [lia|].
    rewrite Nat.add_comm. cbn [Nat.add]. rewrite !clicks_after_first.
    cbn [styleSheet]. split; [done|].
    rewrite (Nat.odd_succ (Datatypes.S (Datatypes.S n))),
      (Nat.even_succ (Datatypes.S n)). done.
  - rewrite clicks_after_first. unfold init. simpl. split.
    + intros Heq. by injection Heq.
    + by intros ->.
Qed.

Lemma theme_after_clicks_witness :
  styleSheet (clicks 3 (init "QWidget{color:red;}")) = dark_sheet /\
  clicks (3 + 2) (init "QWidget{color:red;}") =
    clicks 3 (init "QWidget{color:red;}").
Proof.
  apply (theme_after_clicks "QWidget{color:red;}" 3). vm_compute.
  apply le_n_S, le_0_n.
Defined.

End ThemeToggle.
